(** * shell-plus-plus: the object model, declared classes and the job executor

    A shallow embedding of
      - src/objects/decl-class-object.cc  (AbstractMethod, DeclClassType,
        DeclClassObject),
      - src/objects/obj-type.h            (TypeObject, ContainerType),
      - src/interpreter/expr-executor.h   (ExpressionExecutor::ExecIdentifier),
      - src/cmd-exec.cc                   (Process, Job),
    together with the properties the specification states about them.

    Objects live in a store indexed by handles ([ObjectPtr]); C++ exceptions
    are the [Throw] results of a small state-and-error monad. *)

From Stdlib Require Import ZArith NArith Bool List Lia.
From stdpp Require Import base option gmap strings list.

Open Scope string_scope.

(** ** Kinds, errors and results *)

(** Modelled from the spec: the [ObjectType] enumeration of abstract-obj.h
    (the header is not part of the sources); the closed set of kind tags of
    section 3.1. *)
Inductive ObjectType :=
| NULL | BOOL | INT | REAL | STRING | ARRAY | TUPLE | MAP | FUNC | TYPE
| DECL_TYPE | DECL_IFACE | DECL_OBJ | MODULE | CMD | ARRAY_ITER | CMD_ITER
| WRAPPER_FUNC.

#[global] Instance ObjectType_eq_dec : EqDecision ObjectType.
Proof. solve_decision. Defined.

(** Modelled from the spec: [RunTimeError::ErrorCode] of run_time_error.h,
    the closed set of section 4.7. *)
Inductive ErrorCode :=
| INCOMPATIBLE_TYPE | INVALID_COMMAND | FUNC_PARAMS | SYMBOL_NOT_FOUND
| OUT_OF_RANGE | KEY_NOT_FOUND | INVALID_OPCODE | IMPORT_ERROR | ASSERT.

#[global] Instance ErrorCode_eq_dec : EqDecision ErrorCode.
Proof. solve_decision. Defined.

(** A [RunTimeError] carries its code; the formatted message and the source
    position are not modelled. *)
Record RunTimeError := { code : ErrorCode }.

#[global] Instance RunTimeError_eq_dec : EqDecision RunTimeError.
Proof. solve_decision. Defined.

(** The outcome of a call that may throw. *)
Inductive Result (A : Type) :=
| Ok (a : A)
| Throw (e : RunTimeError).
Arguments Ok {A} a.
Arguments Throw {A} e.

(** ** Objects and the store *)

(** An [ObjectPtr] is a handle into the store; two handles are the same
    object exactly when they are equal. *)
Abbreviation ObjectPtr := positive (only parsing).
Abbreviation Args := (list positive) (only parsing).
Abbreviation KWArgs := (gmap string positive) (only parsing).

(** What CheckAbstractMethodsCompatibility and Constructor read of a
    [FuncObject]: the parameter metadata; [func_id] names the callable. *)
Record FuncObject := {
  NumParams : N;
  NumDefaultParams : N;
  CVariadic : bool;
  func_id : N
}.

(** A [TypeObject] (obj-type.h): the kind handed to the [Object] constructor
    and the name. *)
Record TypeObject := { type_kind : ObjectType; name_ : string }.

(** A [DeclClassObject]: the name of its declared type, its attribute scope
    and the weak back-reference set by [SetSelf]. *)
Record DeclClassObject := {
  ObjType : string;
  attrs : gmap string positive;
  self_ : option positive
}.

Inductive Object :=
| NullObject
| BoolObject (value : bool)
| IntObject (value : Z)
| RealObject (value : Z)
| StringObject (value : string)
| ArrayObject (value : list positive)
| TupleObject (value : list positive)
| MapObject (value : list (positive * positive))
| Func (f : FuncObject)
| Type_ (t : TypeObject)
| DeclObj (d : DeclClassObject).

(** [Object::type()]. *)
Definition type (o : Object) : ObjectType :=
  match o with
  | NullObject => NULL
  | BoolObject _ => BOOL
  | IntObject _ => INT
  | RealObject _ => REAL
  | StringObject _ => STRING
  | ArrayObject _ => ARRAY
  | TupleObject _ => TUPLE
  | MapObject _ => MAP
  | Func _ => FUNC
  | Type_ t => type_kind t
  | DeclObj _ => DECL_OBJ
  end.

(** ** AbstractMethod (decl-class-object.cc, lines 22-78) *)

Module AbstractMethods.

Record AbstractMethod := {
  num_params_ : N;
  num_default_params_ : N;
  variadic_ : bool
}.

(** [AbstractMethod::operator==(const FuncObject&)]. *)
Definition eq_func (this : AbstractMethod) (func : FuncObject) : bool :=
  if variadic_ this then
    (NumParams func =? num_params_ this)%N &&
    (NumDefaultParams func =? num_default_params_ this)%N &&
    eqb (CVariadic func) (variadic_ this)
  else
    (NumParams func =? num_params_ this)%N &&
    eqb (CVariadic func) (variadic_ this).

(** [AbstractMethod::operator!=(const FuncObject&)]. *)
Definition ne_func (this : AbstractMethod) (func : FuncObject) : bool :=
  negb (eq_func this func).

(** [AbstractMethod::operator==(const AbstractMethod&)]. *)
Definition eq (this func : AbstractMethod) : bool :=
  if variadic_ this then
    (num_params_ func =? num_params_ this)%N &&
    (num_default_params_ func =? num_default_params_ this)%N &&
    eqb (variadic_ func) (variadic_ this)
  else
    (num_params_ func =? num_params_ this)%N &&
    eqb (variadic_ func) (variadic_ this).

(** [AbstractMethod::operator!=(const AbstractMethod&)]. *)
Definition ne (this func : AbstractMethod) : bool :=
  negb (eq this func).

End AbstractMethods.

(** ** The interpreter state and its monad *)

(** The store of objects, and the log of the calls made through
    [FuncObject::Call]. *)
Record State := {
  heap : gmap positive Object;
  calls : list (FuncObject * list positive * gmap string positive)
}.

(** A computation reads and updates the state and returns or throws; a
    thrown exception keeps the state reached so far. *)
Definition M (A : Type) : Type := State -> Result A * State.

#[global] Instance M_ret : MRet M := fun A a s => (Ok a, s).

#[global] Instance M_bind : MBind M := fun A B k m s =>
  match m s with
  | (Ok a, s') => k a s'
  | (Throw e, s') => (Throw e, s')
  end.

Definition throw {A} (c : ErrorCode) : M A :=
  fun s => (Throw {| code := c |}, s).

Definition rethrow {A} (e : RunTimeError) : M A := fun s => (Throw e, s).

(** Dereferencing a handle. Handles are shared pointers and never dangle; the
    model reads [NullObject] where the store has nothing. *)
Definition deref (h : gmap positive Object) (p : positive) : Object :=
  default NullObject (h !! p).

Definition load (p : positive) : M Object := fun s => (Ok (deref (heap s) p), s).

(** [new]: a handle the store does not hold yet. *)
Definition alloc (o : Object) : M positive := fun s =>
  let p := fresh (dom (heap s)) in
  (Ok p, {| heap := <[p := o]> (heap s); calls := calls s |}).

(** Assignment through a handle. *)
Definition store (p : positive) (o : Object) : M unit := fun s =>
  (Ok tt, {| heap := <[p := o]> (heap s); calls := calls s |}).

(** Modelled from the spec: [Object::Copy] (abstract-obj.h is not part of
    the sources); section 4.1 lists [copy() -> Object], a new object of equal
    value. *)
Definition Copy (p : positive) : M positive :=
  o ← load p; alloc o.

(** ** Symbol tables (section 3.3) *)

Inductive TableType := FUNC_TABLE | CLASS_TABLE | BLOCK_TABLE.

#[global] Instance TableType_eq_dec : EqDecision TableType.
Proof. solve_decision. Defined.

Record SymbolAttr := { object : positive; global : bool }.

Record SymbolTable := {
  table_type : TableType;
  entries : gmap string SymbolAttr
}.

(** The stack, top table first. *)
Abbreviation SymbolTableStack := (list SymbolTable) (only parsing).

(** Modelled from the spec: [SymbolTableStack::Lookup(name, false)]
    (symbol-table.h is not part of the sources). Section 3.3: the lookup walks
    from top to bottom; section 4.2: below a FUNC_TABLE boundary only global
    entries, CLASS_TABLE frames and the root table stay visible. [outer]
    tells that such a boundary has been crossed. *)
Fixpoint LookupFrom (outer : bool) (st : list SymbolTable) (name : string)
  : option SymbolAttr :=
  match st with
  | [] => None
  | t :: below =>
    let next := outer || bool_decide (table_type t = FUNC_TABLE) in
    match entries t !! name with
    | Some e =>
      if negb outer || global e || bool_decide (table_type t = CLASS_TABLE)
         || bool_decide (below = [])
      then Some e
      else LookupFrom next below name
    | None => LookupFrom next below name
    end
  end.

Definition Lookup (st : list SymbolTable) (name : string) : option SymbolAttr :=
  LookupFrom false st name.

(** Modelled from the spec: [SymbolTableStack::Exists]. *)
Definition Exists (st : list SymbolTable) (name : string) : bool :=
  bool_decide (is_Some (Lookup st name)).

(** Section 3.2: the scalar kinds. *)
Definition is_scalar (k : ObjectType) : bool :=
  match k with
  | INT | REAL | BOOL | STRING | NULL => true
  | _ => false
  end.

(** Modelled from the spec: [SymbolAttr::SharedAccess] (symbol-table.h is not
    part of the sources). Section 4.2: scalar kinds return [object.copy()],
    every other kind returns the same handle. *)
Definition SharedAccess (e : SymbolAttr) : M positive :=
  o ← load (object e);
  if is_scalar (type o) then Copy (object e) else mret (object e).

(** ** Declared classes (decl-class-object.cc) *)

Import AbstractMethods.

(** A [DeclClassType]: the [TypeObject] it extends, the [abstract_] flag, the
    abstract methods by name and the symbol-table stack of the class. *)
Record DeclClassType := {
  as_TypeObject : TypeObject;
  abstract_ : bool;
  abstract_methods_ : gmap string AbstractMethod;
  symbol_table_stack : list SymbolTable
}.

(** The downcast [static_cast<FuncObject&>], applied to objects of kind FUNC. *)
Definition static_cast_FuncObject (o : Object) : FuncObject :=
  match o with
  | Func f => f
  | _ => {| NumParams := 0; NumDefaultParams := 0; CVariadic := false;
            func_id := 0 |}
  end.

(** [StringObject::value()] and [IntObject::value()] after the downcast. *)
Definition StringObject_value (o : Object) : string :=
  match o with StringObject v => v | _ => "" end.

Definition IntObject_value (o : Object) : Z :=
  match o with IntObject v => v | _ => 0%Z end.

Section CheckAbstractMethods.

(** [TypeObject::SearchAttr] is declared outside the sources: it searches the
    class and its bases and returns the attribute found, or throws. *)
Variable SearchAttr : string -> Result Object.

(** The body of the loop of [CheckAbstractMethodsCompatibility], over the
    abstract methods still to visit. *)
Fixpoint check_methods (methods : list (string * AbstractMethod))
  : Result unit :=
  match methods with
  | [] => Ok tt
  | (name, method) :: rest =>
    match SearchAttr name with
    | Throw e => Throw e
    | Ok fobj =>
      if bool_decide (type fobj ≠ FUNC)
      then Throw {| code := INCOMPATIBLE_TYPE |}
      else if ne_func method (static_cast_FuncObject fobj)
      then Throw {| code := INCOMPATIBLE_TYPE |}
      else check_methods rest
    end
  end.

(** [DeclClassType::CheckAbstractMethodsCompatibility] (lines 150-175). *)
Definition CheckAbstractMethodsCompatibility (c : DeclClassType)
  : Result unit :=
  if abstract_ c then Ok tt
  else check_methods (map_to_list (abstract_methods_ c)).

(** An abstract method is implemented when the search finds an attribute of
    function kind whose signature the method equals. *)
Definition implemented (name : string) (method : AbstractMethod) : Prop :=
  exists fobj, SearchAttr name = Ok fobj /\ type fobj = FUNC /\
    eq_func method (static_cast_FuncObject fobj) = true.

End CheckAbstractMethods.

Section Interpreter.

(** What [Lookup(name, false)] throws for a name it does not resolve; neither
    the sources nor the specification give its code. *)
Variable unresolved : string -> RunTimeError.

(** What running a function does to the store and what it returns or throws:
    the evaluator behind [FuncObject::Call] is not part of the sources. *)
Variable body : FuncObject -> list positive -> gmap string positive ->
  gmap positive Object -> Result positive * gmap positive Object.

(** The argument vector the unary dunder methods hand to [Caller] for
    [self_.lock()] (the overload is declared outside the sources). *)
Variable unary_params : positive -> list positive.

(** Modelled from the spec: [ExpressionExecutor::ExecIdentifier]
    (expr-executor.h declares it, its body is not part of the sources).
    Section 4.3: a symbol-stack lookup using SharedAccess semantics. *)
Definition ExecIdentifier (st : list SymbolTable) (name : string) : M positive :=
  match Lookup st name with
  | Some e => SharedAccess e
  | None => rethrow (unresolved name)
  end.

(** [FuncObject::Call]: the call is logged and the function runs. *)
Definition Call (f : FuncObject) (params : list positive)
  (kw_params : gmap string positive) : M positive := fun s =>
  let '(r, h) := body f params kw_params (heap s) in
  (r, {| heap := h; calls := calls s ++ [(f, params, kw_params)] |}).

(** [DeclClassObject::SetSelf] (obj-type.h, lines 49-51). *)
Definition SetSelf (p self_obj : positive) : M unit :=
  o ← load p;
  match o with
  | DeclObj d =>
    store p (DeclObj {| ObjType := ObjType d; attrs := attrs d;
                        self_ := Some self_obj |})
  | _ => mret tt
  end.

(** Modelled from the spec: [ObjectFactory::NewDeclObject] (object-factory.h
    is not part of the sources). Section 4.4: allocates a [DeclClassObject]
    and sets [self_]. *)
Definition NewDeclObject (name_type : string) : M positive :=
  obj ← alloc (DeclObj {| ObjType := name_type; attrs := ∅; self_ := None |});
  _ ← SetSelf obj obj;
  mret obj.

(** The instance [NewDeclObject] builds at handle [p]. *)
Definition new_instance (name_type : string) (p : positive) : Object :=
  DeclObj {| ObjType := name_type; attrs := ∅; self_ := Some p |}.

(** [DeclClassType::Constructor] (lines 218-241). *)
Definition Constructor (c : DeclClassType) (params : list positive)
  (kw_params : gmap string positive) : M positive :=
  if abstract_ c then throw INCOMPATIBLE_TYPE
  else
    obj_self ← NewDeclObject (name_ (as_TypeObject c));
    if Exists (symbol_table_stack c) "__init__" then
      match Lookup (symbol_table_stack c) "__init__" with
      | None => rethrow (unresolved "__init__")
      | Some e =>
        obj_init ← SharedAccess e;
        o ← load obj_init;
        if bool_decide (type o = FUNC) then
          _ ← Call (static_cast_FuncObject o) (obj_self :: params) kw_params;
          mret obj_self
        else mret obj_self
      end
    else mret obj_self.

(** [DeclClassObject::Caller(fname, params, kw_params)] (lines 489-504), for
    an instance of class [c] whose [self_.lock()] is [self]. *)
Definition Caller (c : DeclClassType) (self : positive) (fname : string)
  (params : list positive) (kw_params : gmap string positive) : M positive :=
  match Lookup (symbol_table_stack c) fname with
  | None => rethrow (unresolved fname)
  | Some e =>
    func_obj ← SharedAccess e;
    o ← load func_obj;
    if bool_decide (type o ≠ FUNC) then throw INCOMPATIBLE_TYPE
    else Call (static_cast_FuncObject o) (self :: params) kw_params
  end.

(** [Caller(fname, self_.lock())], the call of the unary dunder methods. *)
Definition Caller_self (c : DeclClassType) (self : positive) (fname : string)
  : M positive :=
  Caller c self fname (unary_params self) ∅.

(** [DeclClassObject::Print] (lines 444-453). *)
Definition Print (c : DeclClassType) (self : positive) : M string :=
  obj ← Caller_self c self "__print__";
  o ← load obj;
  if bool_decide (type o ≠ STRING) then throw INCOMPATIBLE_TYPE
  else mret (StringObject_value o).

(** [DeclClassObject::Len] (lines 455-464). *)
Definition Len (c : DeclClassType) (self : positive) : M Z :=
  obj ← Caller_self c self "__len__";
  o ← load obj;
  if bool_decide (type o ≠ INT) then throw INCOMPATIBLE_TYPE
  else mret (IntObject_value o).

(** [DeclClassObject::Hash] (lines 466-475); the cast to [std::size_t] wraps
    modulo 2^64. *)
Definition Hash (c : DeclClassType) (self : positive) : M Z :=
  obj ← Caller_self c self "__hash__";
  o ← load obj;
  if bool_decide (type o ≠ INT) then throw INCOMPATIBLE_TYPE
  else mret (IntObject_value o mod 2 ^ 64)%Z.

(** [DeclClassObject::ObjBool], [ObjCmd] and [ObjString] (lines 477-487). *)
Definition ObjBool (c : DeclClassType) (self : positive) : M positive :=
  Caller_self c self "__bool__".

Definition ObjCmd (c : DeclClassType) (self : positive) : M positive :=
  Caller_self c self "__cmd__".

Definition ObjString (c : DeclClassType) (self : positive) : M positive :=
  Caller_self c self "__str__".

End Interpreter.

(** The function the symbol [__init__] of the class is bound to in store
    [h], when the symbol exists in the symbol-table stack of the class and
    is of function kind. *)
Definition init_function (c : DeclClassType) (h : gmap positive Object)
  : option FuncObject :=
  match Lookup (symbol_table_stack c) "__init__" with
  | Some e =>
    let o := deref h (object e) in
    if bool_decide (type o = FUNC) then Some (static_cast_FuncObject o)
    else None
  | None => None
  end.

(** ** Type objects (obj-type.h) *)


(** The downcast [static_cast<const TypeObject&>], applied to objects of kind TYPE. *)
Definition static_cast_TypeObject (o : Object) : TypeObject :=
  match o with
  | Type_ t => t
  | _ => {| type_kind := TYPE; name_ := "" |}
  end.

(** [TypeObject::operator==] (lines 142-154). *)
Definition TypeObject_eq (this : TypeObject) (obj : Object) : bool :=
  if bool_decide (type obj ≠ TYPE) then false
  else
    let type_obj := static_cast_TypeObject obj in
    if String.eqb (name_ this) (name_ type_obj) then true else false.

(** [ContainerType::Constructor] (lines 301-310). *)
Definition ContainerType_Constructor (this : TypeObject)
  (params : list positive) : M positive :=
  if negb (length params =? 1)%nat then throw FUNC_PARAMS
  else Copy (nth 0 params 1%positive).

(** ** The job executor (cmd-exec.cc) *)

Module CmdExec.

Open Scope Z_scope.

(** Constants of the C library headers (Linux values). *)
Definition STDIN_FILENO : Z := 0.
Definition STDOUT_FILENO : Z := 1.
Definition STDERR_FILENO : Z := 2.
Definition WAIT_ANY : Z := -1.
Definition WUNTRACED : Z := 2.
Definition ECHILD : Z := 10.
Definition SIGINT : Z := 2.
Definition SIGQUIT : Z := 3.
Definition SIGCHLD : Z := 17.
Definition SIGCONT : Z := 18.
Definition SIGTSTP : Z := 20.
Definition SIGTTIN : Z := 21.
Definition SIGTTOU : Z := 22.
Definition TCSADRAIN : Z := 1.

(** [WIFSTOPPED(status)]: the low byte of the status is 0x7f. *)
Definition WIFSTOPPED (status : Z) : bool := Z.land status 255 =? 127.

(** A [Process] and a [Job] (section 3.6; cmd-exec.h is not part of the
    sources). [job_status_] is the member [Job::status_]. *)
Record Process := {
  args_ : list string;
  pid_ : Z;
  completed_ : bool;
  stopped_ : bool;
  status_ : Z
}.

Record Job := {
  process_ : list Process;
  job_status_ : Z;
  pgid_ : Z;
  stdin_ : Z;
  stdout_ : Z;
  stderr_ : Z;
  shell_tmodes_ : Z
}.

(** What [EnvShell::instance()] answers. *)
Record EnvShell := {
  shell_is_interactive : bool;
  shell_terminal : Z;
  shell_tmodes : Z;
  shell_pgid : Z
}.

(** The system calls the executor makes, as they appear in the trace. *)
Inductive Syscall :=
| sys_getpid
| sys_setpgid (pid pgid : Z)
| sys_tcsetpgrp (fd pgid : Z)
| sys_tcgetattr (fd : Z)
| sys_tcsetattr (fd actions modes : Z)
| sys_signal_dfl (sig : Z)
| sys_dup2 (oldfd newfd : Z)
| sys_close (fd : Z)
| sys_pipe
| sys_fork
| sys_execvp (argv : list string)
| sys_exit (status : Z)
| sys_waitpid (pid options : Z)
| sys_kill (pid sig : Z)
| sys_perror (s : string).

(** The operating system as the process sees it: the trace of the calls made
    so far and the answers the environment will give to the calls to come.
    An answer of [waitpid] is [(pid, status, errno)]: the value returned, the
    value of the local [status] after the call and [errno] after the call. *)
Record World := {
  trace : list Syscall;
  pipes : list (Z * Z * Z);
  forks : list Z;
  waits : list (Z * Z * Z);
  kills : list Z;
  errno : Z;
  getpid_ : Z;
  terminal_modes : Z
}.

(** How a call ends for the calling process: it returns, the process exits,
    the process image is replaced, an exception leaves the function, or the
    environment has no answer left and the call never returns. *)
Inductive Outcome (A : Type) :=
| Returned (a : A) (w : World)
| Exited (status : Z) (w : World)
| Execed (w : World)
| Thrown (e : RunTimeError) (w : World)
| NoAnswer.
Arguments Returned {A} a w.
Arguments Exited {A} status w.
Arguments Execed {A} w.
Arguments Thrown {A} e w.
Arguments NoAnswer {A}.

Definition OS (A : Type) : Type := World -> Outcome A.

#[global] Instance OS_ret : MRet OS := fun A a w => Returned a w.

#[global] Instance OS_bind : MBind OS := fun A B k m w =>
  match m w with
  | Returned a w' => k a w'
  | Exited st w' => Exited st w'
  | Execed w' => Execed w'
  | Thrown e w' => Thrown e w'
  | NoAnswer => NoAnswer
  end.

Definition log (c : Syscall) (w : World) : World :=
  {| trace := trace w ++ [c]; pipes := pipes w; forks := forks w;
     waits := waits w; kills := kills w; errno := errno w;
     getpid_ := getpid_ w; terminal_modes := terminal_modes w |}.

Definition call (c : Syscall) : OS unit := fun w => Returned tt (log c w).

Definition getpid : OS Z := fun w => Returned (getpid_ w) (log sys_getpid w).

Definition exit {A} (status : Z) : OS A := fun w =>
  Exited status (log (sys_exit status) w).

Definition pipe : OS (Z * Z * Z) := fun w =>
  match pipes w with
  | [] => NoAnswer
  | r :: rest =>
    Returned r
      {| trace := trace w ++ [sys_pipe]; pipes := rest; forks := forks w;
         waits := waits w; kills := kills w; errno := errno w;
         getpid_ := getpid_ w; terminal_modes := terminal_modes w |}
  end.

Definition fork : OS Z := fun w =>
  match forks w with
  | [] => NoAnswer
  | pid :: rest =>
    Returned pid
      {| trace := trace w ++ [sys_fork]; pipes := pipes w; forks := rest;
         waits := waits w; kills := kills w; errno := errno w;
         getpid_ := getpid_ w; terminal_modes := terminal_modes w |}
  end.

Definition kill (pid sig : Z) : OS Z := fun w =>
  match kills w with
  | [] => NoAnswer
  | r :: rest =>
    Returned r
      {| trace := trace w ++ [sys_kill pid sig]; pipes := pipes w;
         forks := forks w; waits := waits w; kills := rest; errno := errno w;
         getpid_ := getpid_ w; terminal_modes := terminal_modes w |}
  end.

(** [waitpid(pid, &status, options)]: the value returned and [status]. *)
Definition waitpid (pid options : Z) : OS (Z * Z) := fun w =>
  match waits w with
  | [] => NoAnswer
  | (r, status, err) :: rest =>
    Returned (r, status)
      {| trace := trace w ++ [sys_waitpid pid options]; pipes := pipes w;
         forks := forks w; waits := rest; kills := kills w; errno := err;
         getpid_ := getpid_ w; terminal_modes := terminal_modes w |}
  end.

Definition tcgetattr (fd : Z) : OS Z := fun w =>
  Returned (terminal_modes w) (log (sys_tcgetattr fd) w).

Definition tcsetattr (fd actions modes : Z) : OS unit := fun w =>
  Returned tt
    {| trace := trace w ++ [sys_tcsetattr fd actions modes]; pipes := pipes w;
       forks := forks w; waits := waits w; kills := kills w; errno := errno w;
       getpid_ := getpid_ w; terminal_modes := modes |}.

Definition get_errno : OS Z := fun w => Returned (errno w) w.

Definition when (b : bool) (m : OS unit) : OS unit :=
  if b then m else mret tt.

(** A computation that takes no answer of [waitpid], and one that never
    returns to its caller. *)
Definition keeps_waits {A} (m : OS A) : Prop :=
  forall w a w', m w = Returned a w' -> waits w' = waits w.

Definition never_returns {A} (m : OS A) : Prop :=
  forall w a w', m w <> Returned a w'.

(** *** Bookkeeping of a job *)

Definition set_process (ps : list Process) (j : Job) : Job :=
  {| process_ := ps; job_status_ := job_status_ j; pgid_ := pgid_ j;
     stdin_ := stdin_ j; stdout_ := stdout_ j; stderr_ := stderr_ j;
     shell_tmodes_ := shell_tmodes_ j |}.

Definition set_job_status (st : Z) (j : Job) : Job :=
  {| process_ := process_ j; job_status_ := st; pgid_ := pgid_ j;
     stdin_ := stdin_ j; stdout_ := stdout_ j; stderr_ := stderr_ j;
     shell_tmodes_ := shell_tmodes_ j |}.

Definition set_pgid (g : Z) (j : Job) : Job :=
  {| process_ := process_ j; job_status_ := job_status_ j; pgid_ := g;
     stdin_ := stdin_ j; stdout_ := stdout_ j; stderr_ := stderr_ j;
     shell_tmodes_ := shell_tmodes_ j |}.

Definition set_shell_tmodes (m : Z) (j : Job) : Job :=
  {| process_ := process_ j; job_status_ := job_status_ j; pgid_ := pgid_ j;
     stdin_ := stdin_ j; stdout_ := stdout_ j; stderr_ := stderr_ j;
     shell_tmodes_ := m |}.

(** The assignments of [MarkProcessStatus] to the process found. *)
Definition mark (status : Z) (p : Process) : Process :=
  if WIFSTOPPED status
  then {| args_ := args_ p; pid_ := pid_ p; completed_ := completed_ p;
          stopped_ := true; status_ := status |}
  else {| args_ := args_ p; pid_ := pid_ p; completed_ := true;
          stopped_ := stopped_ p; status_ := status |}.

(** The loop of [MarkProcessStatus]: the first process whose [pid_] is [pid]
    is marked; [None] when the loop ends without finding one. *)
Fixpoint mark_first (pid status : Z) (ps : list Process)
  : option (list Process) :=
  match ps with
  | [] => None
  | p :: rest =>
    if pid_ p =? pid then Some (mark status p :: rest)
    else cons p <$> mark_first pid status rest
  end.

(** [Job::MarkProcessStatus] (lines 123-142), with [errno] as [err]. *)
Definition MarkProcessStatus (err pid status : Z) (j : Job) : Z * Job :=
  if 0 <? pid then
    match mark_first pid status (process_ j) with
    | Some ps => (0, set_process ps j)
    | None => (-1, j)
    end
  else if (pid =? 0) || (err =? ECHILD) then (-1, j)
  else (-1, j).

(** An answer [pid] of [waitpid] reports none of the processes [ps]: no
    child was reported, or the child reported is not one of them. *)
Definition reports_none (pid : Z) (ps : list Process) : Prop :=
  pid <= 0 \/ forall p, p ∈ ps -> pid_ p ≠ pid.

(** [Job::JobIsStopped] (lines 144-151). *)
Fixpoint processes_stopped (ps : list Process) : Z :=
  match ps with
  | [] => 1
  | p :: rest =>
    if negb (completed_ p) && negb (stopped_ p) then 0
    else processes_stopped rest
  end.

Definition JobIsStopped (j : Job) : Z := processes_stopped (process_ j).

(** [Job::JobIsCompleted] (lines 153-160). *)
Fixpoint processes_completed (ps : list Process) : Z :=
  match ps with
  | [] => 1
  | p :: rest =>
    if negb (completed_ p) then 0 else processes_completed rest
  end.

Definition JobIsCompleted (j : Job) : Z := processes_completed (process_ j).

(** [Job::Status] (lines 173-181). *)
Definition Status (j : Job) : Z :=
  fold_left (fun status p => Z.lor status (status_ p)) (process_ j) 0.

(** One turn of the do-while loop of [WaitForJob]: the body, then the value
    of the loop condition. *)
Definition wait_step (j : Job) : OS (bool * Job) :=
  '(pid, status) ← waitpid WAIT_ANY WUNTRACED;
  let j1 := set_job_status (Z.lor (job_status_ j) status) j in
  err ← get_errno;
  let '(r, j2) := MarkProcessStatus err pid status j1 in
  mret ((r =? 0) && (JobIsStopped j2 =? 0) && (JobIsCompleted j2 =? 0), j2).

(** [Job::WaitForJob] (lines 162-171). Every turn consumes one answer of
    [waitpid], so the loop runs at most as many turns as there are answers:
    [n] bounds the turns and [WaitForJob] takes the number of answers. *)
Fixpoint wait_loop (n : nat) (j : Job) : OS Job :=
  match n with
  | O => fun _ => NoAnswer
  | S n' =>
    '(again, j') ← wait_step j;
    if again : bool then wait_loop n' j' else mret j'
  end.

Definition WaitForJob (j : Job) : OS Job := fun w =>
  wait_loop (S (length (waits w))) j w.

(** *** Launching *)

(** The type of a command entry: declared in the script, or any other. *)
Inductive CmdEntryType := kDecl | kOther.

Definition throw_error {A} (c : ErrorCode) : OS A := fun w =>
  Thrown {| code := c |} w.

Definition set_pid (pid : Z) (p : Process) : Process :=
  {| args_ := args_ p; pid_ := pid; completed_ := completed_ p;
     stopped_ := stopped_ p; status_ := status_ p |}.

Section Launch.

(** The shell environment [EnvShell::instance()]. *)
Variable env : EnvShell.

(** [sym_tab_.LookupCmd]: the commands declared in the script. *)
Variable LookupCmd : string -> option CmdEntryType.

(** [CmdDeclEntry::Exec]: running a declared command. *)
Variable CmdDeclExec : list string -> OS unit.

(** Whether [execvp] finds a program to run under this name. *)
Variable exec_found : string -> bool.

(** [execvp] replaces the process image, or returns -1. *)
Definition execvp (argv : list string) : OS Z := fun w =>
  if exec_found (hd "" argv) then Execed (log (sys_execvp argv) w)
  else Returned (-1) (log (sys_execvp argv) w).

(** [Process::LaunchCmd] (lines 116-121). *)
Definition LaunchCmd (cmd : CmdEntryType) (p : Process) : OS unit :=
  match cmd with
  | kDecl => CmdDeclExec (args_ p)
  | kOther => mret tt
  end.

(** [Process::LaunchProcess] (lines 52-114), run by the child. *)
Definition LaunchProcess (p : Process) (infile outfile errfile pgid : Z)
  (foreground : bool) : OS unit :=
  _ ← when (shell_is_interactive env) (
    pid ← getpid;
    let pgid := if pgid =? 0 then pid else pgid in
    _ ← call (sys_setpgid pid pgid);
    _ ← when foreground (call (sys_tcsetpgrp (shell_terminal env) pgid));
    _ ← call (sys_signal_dfl SIGINT);
    _ ← call (sys_signal_dfl SIGQUIT);
    _ ← call (sys_signal_dfl SIGTSTP);
    _ ← call (sys_signal_dfl SIGTTIN);
    _ ← call (sys_signal_dfl SIGTTOU);
    call (sys_signal_dfl SIGCHLD));
  _ ← when (negb (infile =? STDIN_FILENO)) (
    _ ← call (sys_dup2 infile STDIN_FILENO); call (sys_close infile));
  _ ← when (negb (outfile =? STDOUT_FILENO)) (
    _ ← call (sys_dup2 outfile STDOUT_FILENO); call (sys_close outfile));
  _ ← when (negb (errfile =? STDERR_FILENO)) (
    _ ← call (sys_dup2 errfile STDERR_FILENO); call (sys_close errfile));
  match LookupCmd (hd "" (args_ p)) with
  | Some cmd => _ ← LaunchCmd cmd p; exit 0
  | None => _ ← execvp (args_ p); throw_error INVALID_COMMAND
  end.

(** [Job::PutJobInForeground] (lines 183-208). *)
Definition PutJobInForeground (cont : Z) (j : Job) : OS Job :=
  _ ← call (sys_tcsetpgrp (shell_terminal env) (pgid_ j));
  _ ← when (negb (cont =? 0)) (
    _ ← tcsetattr (shell_terminal env) TCSADRAIN (shell_tmodes_ j);
    r ← kill (- pgid_ j) SIGCONT;
    when (r <? 0) (call (sys_perror "kill (SIGCONT)")));
  j1 ← WaitForJob j;
  _ ← call (sys_tcsetpgrp (shell_terminal env) (shell_pgid env));
  m ← tcgetattr (shell_terminal env);
  _ ← tcsetattr (shell_terminal env) TCSADRAIN (shell_tmodes env);
  mret (set_shell_tmodes m j1).

(** [Job::PutJobInBackground] (lines 210-216). *)
Definition PutJobInBackground (cont : Z) (j : Job) : OS Job :=
  _ ← when (negb (cont =? 0)) (
    r ← kill (- pgid_ j) SIGCONT;
    when (r <? 0) (call (sys_perror "kill (SIGCONT)")));
  mret j.

(** The for loop of [LaunchJob]: [n] turns are left, [i] is the index of the
    process to launch, [mypipe] the array the last [pipe] filled. *)
Fixpoint launch_loop (foreground : Z) (n i : nat) (infile : Z)
  (mypipe : Z * Z) (j : Job) : OS Job :=
  match n with
  | O => mret j
  | S n' =>
    '(outfile, mypipe) ←
      (if negb (i =? length (process_ j) - 1)%nat then
         '(r, rd, wr) ← pipe;
         if r <? 0 then _ ← call (sys_perror "pipe"); exit 1
         else mret (wr, (rd, wr))
       else mret (stdout_ j, mypipe));
    pid ← fork;
    j ←
      (if pid =? 0 then
         match process_ j !! i with
         | Some p =>
           _ ← LaunchProcess p infile outfile (stderr_ j) (pgid_ j)
                 (negb (foreground =? 0));
           mret j
         | None => mret j
         end
       else if pid <? 0 then _ ← call (sys_perror "fork"); exit 1
       else
         let j := set_process (alter (set_pid pid) i (process_ j)) j in
         if shell_is_interactive env then
           let j := if pgid_ j =? 0 then set_pgid pid j else j in
           _ ← call (sys_setpgid pid (pgid_ j));
           mret j
         else mret j);
    _ ← when (negb (infile =? stdin_ j)) (call (sys_close infile));
    _ ← when (negb (outfile =? stdout_ j)) (call (sys_close outfile));
    launch_loop foreground n' (S i) (fst mypipe) mypipe j
  end.

(** [Job::LaunchJob] (lines 218-276); [mypipe] is the content of the array
    before the first [pipe], which the code does not initialise. *)
Definition LaunchJob (mypipe : Z * Z) (foreground : Z) (j : Job) : OS Job :=
  j ← launch_loop foreground (length (process_ j)) 0 (stdin_ j) mypipe j;
  if negb (shell_is_interactive env) then WaitForJob j
  else if negb (foreground =? 0) then PutJobInForeground 0 j
  else PutJobInBackground 0 j.

End Launch.

(** What the parent records of the child [fork] answered with [pid], in
    the turn of the process of index [i] (lines 246-258). *)
Definition parent_stage (env : EnvShell) (i : nat) (pid : Z) (j : Job) : Job :=
  let j := set_process (alter (set_pid pid) i (process_ j)) j in
  if shell_is_interactive env
  then (if pgid_ j =? 0 then set_pgid pid j else j)
  else j.

(** *** What a call keeps *)

(** The second process is the first one, or the first one after
    [MarkProcessStatus] recorded [status] for [pid] in it. *)
Definition same_or_marked (pid status : Z) (p p' : Process) : Prop :=
  p' = p \/ (pid_ p = pid /\ p' = mark status p).

(** Between two states of a process, the pid and the arguments are kept and
    no flag that was set is cleared. *)
Definition flags_kept (p p' : Process) : Prop :=
  pid_ p' = pid_ p /\ args_ p' = args_ p /\
  (completed_ p = true -> completed_ p' = true) /\
  (stopped_ p = true -> stopped_ p' = true).

(** The second process is the first one but for its pid. *)
Definition same_but_pid (p p' : Process) : Prop :=
  args_ p' = args_ p /\ completed_ p' = completed_ p /\
  stopped_ p' = stopped_ p /\ status_ p' = status_ p.

(** A computation that leaves a component of the world as it was. *)
Definition keeps {A F} (component : World -> F) (m : OS A) : Prop :=
  forall w a w', m w = Returned a w' -> component w' = component w.


(** In a process that [fork] never answers 0, the computation returns,
    leaves the process with status 1 or waits for an answer for ever: it
    neither throws nor replaces the process image. *)
Definition parent_safe {A} (m : OS A) : Prop :=
  forall w, 0 ∉ forks w ->
    match m w with
    | Returned _ w' => 0 ∉ forks w'
    | Exited status _ => status = 1
    | NoAnswer => True
    | Execed _ => False
    | Thrown _ _ => False
    end.

End CmdExec.

(** ** Declaring classes and interfaces (decl-class-object.cc) *)

(** What the constructor of [DeclClassType] reads of its base: no base, a
    type that is not declared, or a declared class. *)
Inductive BaseType :=
| NoBase
| BuiltinBase
| DeclaredBase (base : DeclClassType).

(** The loop that inserts the methods [methods] of a base into the map
    [own]: a name the map already holds throws (lines 107-119 and 514-524). *)
Fixpoint insert_methods (methods : list (string * AbstractMethod))
  (own : gmap string AbstractMethod) : Result (gmap string AbstractMethod) :=
  match methods with
  | [] => Ok own
  | (name, method) :: rest =>
    match own !! name with
    | Some _ => Throw {| code := INCOMPATIBLE_TYPE |}
    | None => insert_methods rest (<[name := method]> own)
    end
  end.

(** The body of the constructor [DeclClassType::DeclClassType] (lines
    84-120), which runs once the constructor of the base class, called in
    line 83, has returned: [sym_table] is the stack as that constructor
    leaves it, [base] what the body reads of the base it accepted, and
    [abstract_methods_] starts empty. *)
Definition DeclClassType_new (name : string) (sym_table : list SymbolTable)
  (base : BaseType) (abstract : bool) : Result DeclClassType :=
  let stack := {| table_type := CLASS_TABLE; entries := ∅ |} :: sym_table in
  let built methods :=
    {| as_TypeObject := {| type_kind := TYPE; name_ := name |};
       abstract_ := abstract;
       abstract_methods_ := methods;
       symbol_table_stack := stack |} in
  match base with
  | NoBase => Ok (built ∅)
  | BuiltinBase => Ok (built ∅)
  | DeclaredBase decl_base =>
    match insert_methods (map_to_list (abstract_methods_ decl_base)) ∅ with
    | Ok methods => Ok (built methods)
    | Throw e => Throw e
    end
  end.

(** The constructor [DeclClassType::DeclClassType] (lines 80-120). It
    starts with the constructor of its base class,
    [TypeObject(name, obj_type, sym_table, base, ifaces)] (line 83), which
    is not part of the sources and which, by the comment of lines 94-95,
    checks that the base is a type. [checked] is the outcome of that call:
    what it throws ends the construction before the body runs. *)
Definition DeclClassType_ctor (checked : Result unit) (name : string)
  (sym_table : list SymbolTable) (base : BaseType) (abstract : bool)
  : Result DeclClassType :=
  match checked with
  | Throw e => Throw e
  | Ok _ => DeclClassType_new name sym_table base abstract
  end.

(** The abstract methods a base hands down. *)
Definition base_methods (base : BaseType) : gmap string AbstractMethod :=
  match base with
  | DeclaredBase decl_base => abstract_methods_ decl_base
  | _ => ∅
  end.

Definition set_abstract_methods (methods : gmap string AbstractMethod)
  (c : DeclClassType) : DeclClassType :=
  {| as_TypeObject := as_TypeObject c; abstract_ := abstract_ c;
     abstract_methods_ := methods;
     symbol_table_stack := symbol_table_stack c |}.

Section Declaring.

(** [TypeObject::ExistsAttr] is declared outside the sources: whether the
    class or one of its bases has an attribute of this name. *)
Variable ExistsAttr : string -> bool.

(** [DeclClassType::AddAbstractMethod] (lines 122-148). *)
Definition AddAbstractMethod (name : string) (method : AbstractMethod)
  (c : DeclClassType) : Result DeclClassType :=
  if negb (abstract_ c) then Throw {| code := INCOMPATIBLE_TYPE |}
  else
    match abstract_methods_ c !! name with
    | Some _ => Throw {| code := INCOMPATIBLE_TYPE |}
    | None =>
      if ExistsAttr name then Throw {| code := INCOMPATIBLE_TYPE |}
      else Ok (set_abstract_methods (<[name := method]> (abstract_methods_ c)) c)
    end.

End Declaring.

(** A [DeclInterface]: the [TypeObject] it extends and its methods. The
    entries of [Interfaces()] are read through this record, whatever their
    kind. *)
Record DeclInterface := {
  iface_TypeObject : TypeObject;
  methods_ : gmap string AbstractMethod
}.

(** The loops of the constructor [DeclInterface::DeclInterface] (lines
    506-526) over the base interfaces. *)
Fixpoint merge_interfaces (ifaces : list DeclInterface)
  (own : gmap string AbstractMethod) : Result (gmap string AbstractMethod) :=
  match ifaces with
  | [] => Ok own
  | ifc :: rest =>
    match insert_methods (map_to_list (methods_ ifc)) own with
    | Ok own' => merge_interfaces rest own'
    | Throw e => Throw e
    end
  end.

Definition DeclInterface_new (name : string) (ifaces : list DeclInterface)
  : Result DeclInterface :=
  match merge_interfaces ifaces ∅ with
  | Ok methods =>
    Ok {| iface_TypeObject := {| type_kind := DECL_IFACE; name_ := name |};
          methods_ := methods |}
  | Throw e => Throw e
  end.

(** No method name is declared by two of the interfaces. *)
Definition distinct_method_names (ifaces : list DeclInterface) : Prop :=
  forall l1 a l2 b l3,
    ifaces = (l1 ++ a :: l2 ++ b :: l3)%list -> methods_ a ##ₘ methods_ b.

(** [DeclInterface::AddMethod] (lines 533-545). *)
Definition AddMethod (name : string) (method : AbstractMethod)
  (i : DeclInterface) : Result DeclInterface :=
  match methods_ i !! name with
  | Some _ => Throw {| code := INCOMPATIBLE_TYPE |}
  | None =>
    Ok {| iface_TypeObject := iface_TypeObject i;
          methods_ := <[name := method]> (methods_ i) |}
  end.

Section CheckInterfaces.

Variable SearchAttr : string -> Result Object.

(** Whether the class declares the method of the interface abstract itself,
    with an equal signature (lines 190-195). *)
Definition declared_abstract (own : gmap string AbstractMethod)
  (name : string) (method : AbstractMethod) : bool :=
  match own !! name with
  | Some own_method => AbstractMethods.eq own_method method
  | None => false
  end.

(** The inner loop of [CheckInterfaceCompatibility], over the methods of one
    interface. *)
Fixpoint check_iface_methods (own : gmap string AbstractMethod)
  (methods : list (string * AbstractMethod)) : Result unit :=
  match methods with
  | [] => Ok tt
  | (name, method) :: rest =>
    if declared_abstract own name method then check_iface_methods own rest
    else
      match SearchAttr name with
      | Throw e => Throw e
      | Ok fobj =>
        if bool_decide (type fobj ≠ FUNC)
        then Throw {| code := INCOMPATIBLE_TYPE |}
        else if ne_func method (static_cast_FuncObject fobj)
        then Throw {| code := INCOMPATIBLE_TYPE |}
        else check_iface_methods own rest
      end
  end.

(** The outer loop, over [Interfaces()]. *)
Fixpoint check_ifaces (own : gmap string AbstractMethod)
  (ifaces : list DeclInterface) : Result unit :=
  match ifaces with
  | [] => Ok tt
  | iface :: rest =>
    if bool_decide (type_kind (iface_TypeObject iface) ≠ DECL_IFACE)
    then Throw {| code := INCOMPATIBLE_TYPE |}
    else
      match check_iface_methods own (map_to_list (methods_ iface)) with
      | Ok _ => check_ifaces own rest
      | Throw e => Throw e
      end
  end.

(** [DeclClassType::CheckInterfaceCompatibility] (lines 177-213), for a
    class whose [Interfaces()] are [ifaces]. *)
Definition CheckInterfaceCompatibility (c : DeclClassType)
  (ifaces : list DeclInterface) : Result unit :=
  check_ifaces (abstract_methods_ c) ifaces.

End CheckInterfaces.

(** ** The built-in type objects (obj-type.h, lines 182-362) *)

(** The classes that extend [TypeObject] with a fixed name. *)
Inductive BuiltinType :=
| Type_t | NullType | BoolType | IntType | RealType | CmdType | CmdIterType
| ArrayIterType | ArrayType | MapType | TupleType | FuncType | ModuleType.

(** The name each constructor hands to [TypeObject]; the kind is TYPE
    (line 130). *)
Definition builtin_name (b : BuiltinType) : string :=
  match b with
  | Type_t => "type"
  | NullType => "null_t"
  | BoolType => "bool"
  | IntType => "int"
  | RealType => "real"
  | CmdType => "cmdobj"
  | CmdIterType => "cmd_iter"
  | ArrayIterType => "array_iter"
  | ArrayType => "array"
  | MapType => "map"
  | TupleType => "tuple"
  | FuncType => "func"
  | ModuleType => "module"
  end.

Definition builtin_TypeObject (b : BuiltinType) : TypeObject :=
  {| type_kind := TYPE; name_ := builtin_name b |}.

(** The constructor [DeclClassType(name, obj_type, sym_table)] of obj-type.h
    (lines 195-197) as a type object: kind TYPE and the name of the class. *)
Definition declared_TypeObject (name : string) : TypeObject :=
  {| type_kind := TYPE; name_ := name |}.

(** * Concrete inputs

    The programs and environments the statements below are run on. *)

(** The script [x = 5; a = [x]; class V { ... }; v = V()]: the store, the
    scope of the script, the functions [V] declares and what they return. *)
Definition ex_dunder : FuncObject :=
  {| NumParams := 1; NumDefaultParams := 0; CVariadic := false; func_id := 1 |}.

Definition ex_init : FuncObject :=
  {| NumParams := 2; NumDefaultParams := 0; CVariadic := false; func_id := 2 |}.

Definition ex_state : State :=
  {| heap := {[ 1%positive := IntObject 5;
                2%positive := ArrayObject [1%positive];
                3%positive := Func ex_dunder;
                4%positive := Func ex_init;
                5%positive := NullObject;
                6%positive := DeclObj {| ObjType := "V"; attrs := ∅;
                                         self_ := Some 6%positive |} ]};
     calls := [] |}.

Definition ex_scope : list SymbolTable :=
  [ {| table_type := BLOCK_TABLE;
       entries := {[ "x" := {| object := 1%positive; global := false |};
                     "a" := {| object := 2%positive; global := false |};
                     "v" := {| object := 6%positive; global := false |} ]} |} ].

Definition ex_unresolved (name : string) : RunTimeError :=
  {| code := SYMBOL_NOT_FOUND |}.

(** Every dunder method of [V] returns the integer [x]; [__init__] returns
    null. *)
Definition ex_body (f : FuncObject) (params : list positive)
  (kw_params : gmap string positive) (h : gmap positive Object)
  : Result positive * gmap positive Object :=
  if (func_id f =? 1)%N then (Ok 1%positive, h) else (Ok 5%positive, h).

Definition ex_unary_params (self : positive) : list positive := [].

Definition ex_class_V : DeclClassType :=
  {| as_TypeObject := {| type_kind := TYPE; name_ := "V" |};
     abstract_ := false;
     abstract_methods_ := ∅;
     symbol_table_stack :=
       [ {| table_type := CLASS_TABLE;
            entries :=
              {[ "__init__" := {| object := 4%positive; global := true |};
                 "__print__" := {| object := 3%positive; global := true |};
                 "__str__" := {| object := 3%positive; global := true |} ]} |} ] |}.

(** [abstract class A { abstract fn f(x) }]. *)
Definition ex_class_A : DeclClassType :=
  {| as_TypeObject := {| type_kind := TYPE; name_ := "A" |};
     abstract_ := true;
     abstract_methods_ :=
       {[ "f" := {| AbstractMethods.num_params_ := 1;
                    AbstractMethods.num_default_params_ := 0;
                    AbstractMethods.variadic_ := false |} ]};
     symbol_table_stack :=
       [ {| table_type := CLASS_TABLE; entries := ∅ |} ] |}.


Definition ex_search_B (name : string) : Result Object :=
  if String.eqb name "f" then Ok (Func ex_dunder)
  else Throw {| code := INCOMPATIBLE_TYPE |}.



(** An interface, of the kind [DeclInterface] hands to [TypeObject]. *)
Definition ex_iface_I : TypeObject := {| type_kind := DECL_IFACE; name_ := "I" |}.

Definition ex_array_type : TypeObject := {| type_kind := TYPE; name_ := "array" |}.

(** [interface I { fn g(x) }], and the method [fn h(x, y = 1)] a second
    interface adds to it. *)
Definition ex_interface_I : DeclInterface :=
  {| iface_TypeObject := ex_iface_I;
     methods_ :=
       {[ "g" := {| AbstractMethods.num_params_ := 1;
                    AbstractMethods.num_default_params_ := 0;
                    AbstractMethods.variadic_ := false |} ]} |}.

Definition ex_method_h : AbstractMethods.AbstractMethod :=
  {| AbstractMethods.num_params_ := 2;
     AbstractMethods.num_default_params_ := 1;
     AbstractMethods.variadic_ := false |}.

(** No name is an attribute of the class yet. *)
Definition ex_ExistsAttr (name : string) : bool := false.

(** The pipeline [echo hello | tr a-z A-Z] in an interactive shell, and the
    answers of the system: both children are forked and reported as exited,
    or [waitpid] fails with ECHILD. *)
Definition ex_env : CmdExec.EnvShell :=
  {| CmdExec.shell_is_interactive := true; CmdExec.shell_terminal := 0;
     CmdExec.shell_tmodes := 7; CmdExec.shell_pgid := 100 |}.

Definition ex_process (args : list string) : CmdExec.Process :=
  {| CmdExec.args_ := args; CmdExec.pid_ := 0; CmdExec.completed_ := false;
     CmdExec.stopped_ := false; CmdExec.status_ := 0 |}.

Definition ex_job : CmdExec.Job :=
  {| CmdExec.process_ := [ex_process ["echo"; "hello"];
                          ex_process ["tr"; "a-z"; "A-Z"]];
     CmdExec.job_status_ := 0; CmdExec.pgid_ := 0; CmdExec.stdin_ := 0;
     CmdExec.stdout_ := 1; CmdExec.stderr_ := 2; CmdExec.shell_tmodes_ := 0 |}.

Definition ex_world (answers : list (Z * Z * Z)) : CmdExec.World :=
  {| CmdExec.trace := []; CmdExec.pipes := [(0, 3, 4)%Z];
     CmdExec.forks := [10; 11]%Z; CmdExec.waits := answers;
     CmdExec.kills := []; CmdExec.errno := 0; CmdExec.getpid_ := 100;
     CmdExec.terminal_modes := 7 |}.


Definition ex_LookupCmd (name : string) : option CmdExec.CmdEntryType := None.

Definition ex_CmdDeclExec (args : list string) : CmdExec.OS unit := mret tt.

Definition ex_exec_found (name : string) : bool := true.

(** A job whose two processes have exited. *)
Definition ex_job_done : CmdExec.Job :=
  {| CmdExec.process_ :=
       [ {| CmdExec.args_ := ["echo"]; CmdExec.pid_ := 10;
            CmdExec.completed_ := true; CmdExec.stopped_ := false;
            CmdExec.status_ := 0 |};
         {| CmdExec.args_ := ["tr"]; CmdExec.pid_ := 11;
            CmdExec.completed_ := true; CmdExec.stopped_ := false;
            CmdExec.status_ := 0 |} ];
     CmdExec.job_status_ := 0; CmdExec.pgid_ := 10; CmdExec.stdin_ := 0;
     CmdExec.stdout_ := 1; CmdExec.stderr_ := 2; CmdExec.shell_tmodes_ := 0 |}.

(** * Properties *)

(** ** AbstractMethod equality *)

Section AbstractMethodFacts.

Import AbstractMethods.

Lemma eqb_bool_true (a b : bool) : eqb a b = true <-> a = b.
Proof. destruct a, b; simpl; intuition congruence. Qed.

(** C4. [a == b] on abstract methods compares the triple
    [(num_params, num_default_params, variadic)] when [a] is variadic and
    only the pair [(num_params, variadic)] when it is not, so that the
    number of default parameters of a non-variadic method is ignored;
    [a != b] is the negation of [a == b]. *)
Theorem AbstractMethod_eq_compares (a b : AbstractMethod) :
  (AbstractMethods.eq a b = true <->
     if variadic_ a
     then (num_params_ b, num_default_params_ b, variadic_ b)
          = (num_params_ a, num_default_params_ a, variadic_ a)
     else (num_params_ b, variadic_ b) = (num_params_ a, variadic_ a))
  /\ (if variadic_ a then True
      else forall d : N,
        AbstractMethods.eq a {| num_params_ := num_params_ b;
                                num_default_params_ := d;
                                variadic_ := variadic_ b |}
        = AbstractMethods.eq a b)
  /\ AbstractMethods.ne a b = negb (AbstractMethods.eq a b).
Proof.
  split; [|split; [|reflexivity]].
  - unfold AbstractMethods.eq. destruct (variadic_ a) eqn:Hv.
    + rewrite !andb_true_iff, !N.eqb_eq, eqb_bool_true. split.
      * intros [[-> ->] ->]. reflexivity.
      * intros [= -> -> ->]. auto.
    + rewrite andb_true_iff, N.eqb_eq, eqb_bool_true. split.
      * intros [-> ->]. reflexivity.
      * intros [= -> ->]. auto.
  - unfold AbstractMethods.eq. destruct (variadic_ a); [exact I|].
    intros d. reflexivity.
Qed.

End AbstractMethodFacts.

(** ** Abstract-method conformance of a class *)

Section CheckFacts.

Import AbstractMethods.

Variable SearchAttr : string -> Result Object.

(** One turn of the loop succeeds exactly on an implemented method. *)
Lemma check_methods_cons name method rest :
  (implemented SearchAttr name method /\
   check_methods SearchAttr ((name, method) :: rest)
   = check_methods SearchAttr rest)
  \/ (~ implemented SearchAttr name method /\
      exists e, check_methods SearchAttr ((name, method) :: rest) = Throw e /\
        (code e = INCOMPATIBLE_TYPE \/ SearchAttr name = Throw e)).
Proof.
  unfold implemented. simpl. destruct (SearchAttr name) as [fobj|e] eqn:Hs.
  - case_bool_decide as Hk.
    + right. split; [|eauto]. intros (f & [= <-] & Hf & _). contradiction.
    + assert (type fobj = FUNC) as Hf by (destruct (decide (type fobj = FUNC)); tauto).
      unfold ne_func.
      destruct (eq_func method (static_cast_FuncObject fobj)) eqn:He; simpl.
      * left. eauto.
      * right. split; [|eauto]. intros (f & [= <-] & _ & He'). congruence.
  - right. split; [|eauto]. intros (f & [=] & _).
Qed.

Lemma check_methods_Ok methods :
  check_methods SearchAttr methods = Ok tt <->
  (forall name method, (name, method) ∈ methods ->
     implemented SearchAttr name method).
Proof.
  induction methods as [|[name method] rest IH].
  - simpl. split; [|reflexivity]. intros _ n m Hin. inversion Hin.
  - destruct (check_methods_cons name method rest) as [[Hi ->]|[Hn (e & -> & _)]].
    + rewrite IH. split.
      * intros H n m Hin. apply elem_of_cons in Hin as [[=-> ->]|Hin]; auto.
      * intros H n m Hin. apply H. by apply elem_of_cons; right.
    + split; [discriminate|]. intros H. exfalso. apply Hn, H.
      by apply elem_of_cons; left.
Qed.



End CheckFacts.


(** ** The store *)

Ltac run_M :=
  unfold Copy, SharedAccess, mbind, M_bind, mret, M_ret, load, alloc, store,
    throw, rethrow; simpl.

Lemma fresh_not_in_heap (h : gmap positive Object) : h !! fresh (dom h) = None.
Proof. apply not_elem_of_dom, is_fresh. Qed.

Lemma fresh_ne (h : gmap positive Object) (p : positive) (o : Object) :
  h !! p = Some o -> fresh (dom h) ≠ p.
Proof. intros H Heq. rewrite <- Heq, fresh_not_in_heap in H. discriminate. Qed.

(** [Copy] allocates: the copy is a handle the store did not hold, it has the
    value of the original, and every object of the store stays as it was. *)
Lemma Copy_spec (p : positive) (o : Object) (s : State) :
  heap s !! p = Some o ->
  exists q, Copy p s = (Ok q, {| heap := <[q := o]> (heap s); calls := calls s |})
    /\ heap s !! q = None /\ q ≠ p.
Proof.
  intros H. exists (fresh (dom (heap s))). run_M. unfold deref. rewrite H.
  simpl. split; [reflexivity|].
  split; [apply fresh_not_in_heap|by eapply fresh_ne].
Qed.

Lemma SharedAccess_run (e : SymbolAttr) (s : State) :
  SharedAccess e s =
  if is_scalar (type (deref (heap s) (object e)))
  then (Ok (fresh (dom (heap s))),
        {| heap := <[fresh (dom (heap s)) := deref (heap s) (object e)]> (heap s);
           calls := calls s |})
  else (Ok (object e), s).
Proof.
  run_M. by destruct (is_scalar (type (deref (heap s) (object e)))).
Qed.

Lemma deref_Some (h : gmap positive Object) (p : positive) (o : Object) :
  h !! p = Some o -> deref h p = o.
Proof. unfold deref. by intros ->. Qed.

Lemma bind_run {A B} (m : M A) (k : A -> M B) (s : State) :
  (m ≫= k) s =
  match m s with
  | (Ok a, s') => k a s'
  | (Throw e, s') => (Throw e, s')
  end.
Proof. reflexivity. Qed.

Lemma SharedAccess_scalar (e : SymbolAttr) (o : Object) (s : State) :
  heap s !! object e = Some o -> is_scalar (type o) = true ->
  SharedAccess e s = Copy (object e) s.
Proof.
  intros H Hs. rewrite SharedAccess_run, (deref_Some _ _ _ H), Hs.
  run_M. by rewrite (deref_Some _ _ _ H).
Qed.

Lemma SharedAccess_shared (e : SymbolAttr) (o : Object) (s : State) :
  heap s !! object e = Some o -> is_scalar (type o) = false ->
  SharedAccess e s = (Ok (object e), s).
Proof.
  intros H Hs. by rewrite SharedAccess_run, (deref_Some _ _ _ H), Hs.
Qed.

(** ** Identifier resolution *)

(** C1. Reading an identifier bound to an object of scalar kind returns a
    fresh copy: a handle the store did not hold, with the value of the
    original; assigning through the copy leaves the original as it was, and
    a second read yields one more handle, distinct from both. Reading an
    identifier bound to an object of any other kind (containers, declared
    instances) returns the bound handle itself and leaves the store alone,
    so an assignment through the handle of one read is seen through the
    handle of another. *)
Theorem ExecIdentifier_value_and_reference_semantics
  (unresolved : string -> RunTimeError) (st : list SymbolTable)
  (name : string) (e : SymbolAttr) (o : Object) (s : State)
  (Hbound : Lookup st name = Some e)
  (Hobj : heap s !! object e = Some o) :
  (is_scalar (type o) = true ->
     exists p s1,
       ExecIdentifier unresolved st name s = (Ok p, s1) /\
       heap s !! p = None /\ p ≠ object e /\
       heap s1 !! p = Some o /\ heap s1 !! object e = Some o /\
       (forall o', heap (snd (store p o' s1)) !! object e = Some o) /\
       exists q s2,
         ExecIdentifier unresolved st name s1 = (Ok q, s2) /\
         q ≠ p /\ q ≠ object e /\
         heap s2 !! q = Some o /\ heap s2 !! p = Some o /\
         (forall o', heap (snd (store q o' s2)) !! p = Some o /\
                     heap (snd (store q o' s2)) !! object e = Some o)) /\
  (is_scalar (type o) = false ->
     ExecIdentifier unresolved st name s = (Ok (object e), s) /\
     forall p1 p2 s1 s2,
       ExecIdentifier unresolved st name s = (Ok p1, s1) ->
       ExecIdentifier unresolved st name s1 = (Ok p2, s2) ->
       p1 = p2 /\ s2 = s /\
       forall o', heap (snd (store p1 o' s2)) !! p2 = Some o').
Proof.
  unfold ExecIdentifier. rewrite Hbound. split; intros Hk.
  - rewrite (SharedAccess_scalar e o s Hobj Hk).
    destruct (Copy_spec _ _ _ Hobj) as (p & -> & Hp & Hne).
    eexists p, _. split; [reflexivity|]. simpl.
    assert (<[p:=o]> (heap s) !! object e = Some o) as Hobj1
      by (by rewrite lookup_insert_ne).
    repeat split; try done.
    + apply lookup_insert_eq.
    + intros o'. by rewrite lookup_insert_ne.
    + set (s1 := {| heap := <[p:=o]> (heap s); calls := calls s |}).
      rewrite (SharedAccess_scalar e o s1 Hobj1 Hk).
      destruct (Copy_spec (object e) o s1 Hobj1) as (q & -> & Hq & Hqe).
      simpl in Hq. assert (q ≠ p) as Hqp.
      { intros ->. rewrite lookup_insert_eq in Hq. discriminate. }
      eexists q, _. split; [reflexivity|]. simpl.
      repeat split; try done.
      * apply lookup_insert_eq.
      * rewrite lookup_insert_ne by done. apply lookup_insert_eq.
      * rewrite !lookup_insert_ne by done. apply lookup_insert_eq.
      * by rewrite !lookup_insert_ne.
  - rewrite (SharedAccess_shared e o s Hobj Hk). split; [reflexivity|].
    intros p1 p2 s1 s2 [= <- <-].
    rewrite (SharedAccess_shared e o s Hobj Hk). intros [= <- <-].
    repeat split. intros o'. simpl. apply lookup_insert_eq.
Qed.

(** ** Construction of declared instances *)

Section ConstructorFacts.

Variable unresolved : string -> RunTimeError.
Variable body : FuncObject -> list positive -> gmap string positive ->
  gmap positive Object -> Result positive * gmap positive Object.

Lemma NewDeclObject_spec (name_type : string) (s : State) :
  NewDeclObject name_type s =
  (Ok (fresh (dom (heap s))),
   {| heap := <[fresh (dom (heap s)) :=
                  new_instance name_type (fresh (dom (heap s)))]> (heap s);
      calls := calls s |}).
Proof.
  unfold NewDeclObject, SetSelf, new_instance. run_M. unfold deref. simpl.
  rewrite lookup_insert_eq. simpl. by rewrite insert_insert_eq.
Qed.

Lemma is_scalar_not_FUNC (o : Object) :
  is_scalar (type o) = true -> type o ≠ FUNC.
Proof. intros H Hf. rewrite Hf in H. discriminate. Qed.

Lemma Constructor_not_abstract (c : DeclClassType) (params : list positive)
  (kw_params : gmap string positive) (s : State) :
  abstract_ c = false ->
  let obj := fresh (dom (heap s)) in
  let s1 := {| heap := <[obj := new_instance (name_ (as_TypeObject c)) obj]>
                         (heap s);
               calls := calls s |} in
  match init_function c (heap s1) with
  | Some f =>
    Constructor unresolved body c params kw_params s =
    (match fst (body f (obj :: params) kw_params (heap s1)) with
     | Ok _ => Ok obj
     | Throw e => Throw e
     end,
     {| heap := snd (body f (obj :: params) kw_params (heap s1));
        calls := calls s ++ [(f, obj :: params, kw_params)] |})
  | None =>
    exists s', Constructor unresolved body c params kw_params s = (Ok obj, s')
      /\ calls s' = calls s
      /\ heap s' !! obj = Some (new_instance (name_ (as_TypeObject c)) obj)
  end.
Proof.
  intros Hc obj s1.
  assert (forall k : positive -> M positive,
            (NewDeclObject (name_ (as_TypeObject c)) ≫= k) s = k obj s1) as Hnew.
  { intros k. unfold mbind, M_bind. by rewrite NewDeclObject_spec. }
  unfold Constructor, Exists. rewrite Hc.
  destruct (init_function c (heap s1)) as [f|] eqn:Hi; rewrite Hnew;
    unfold init_function in Hi;
    destruct (Lookup (symbol_table_stack c) "__init__") as [e|] eqn:Hl;
    try discriminate.
  - rewrite (bool_decide_eq_true_2 (is_Some (Some e))) by eauto.
    case_bool_decide as Hf; [|discriminate]. injection Hi as <-.
    rewrite bind_run, SharedAccess_run, Hf. simpl.
    rewrite bind_run. unfold load at 1. rewrite (bool_decide_eq_true_2 _ Hf).
    rewrite bind_run. unfold Call. simpl.
    destruct (body _ _ _ _) as [[r|err] h]; reflexivity.
  - rewrite (bool_decide_eq_true_2 (is_Some (Some e))) by eauto.
    case_bool_decide as Hf; [discriminate|]. clear Hi.
    rewrite bind_run, SharedAccess_run.
    destruct (is_scalar (type (deref (heap s1) (object e)))) eqn:Hk.
    + rewrite bind_run. unfold load at 1. simpl.
      rewrite (deref_Some _ _ (deref (heap s1) (object e)))
        by apply lookup_insert_eq.
      rewrite (bool_decide_eq_false_2 _ Hf).
      eexists. split; [reflexivity|]. split; [reflexivity|]. simpl.
      rewrite lookup_insert_ne; [apply lookup_insert_eq|].
      apply fresh_ne with (o := new_instance (name_ (as_TypeObject c)) obj).
      apply lookup_insert_eq.
    + rewrite bind_run. unfold load at 1. rewrite (bool_decide_eq_false_2 _ Hf).
      eexists. split; [reflexivity|]. split; [reflexivity|]. simpl.
      apply lookup_insert_eq.
  - rewrite (bool_decide_eq_false_2 (is_Some None)) by (intros [? [=]]).
    eexists. split; [reflexivity|]. split; [reflexivity|]. simpl.
    apply lookup_insert_eq.
Qed.

End ConstructorFacts.

(** C3. The constructor of a class whose [abstract_] flag is set throws a
    RunTimeError of code INCOMPATIBLE_TYPE whatever the arguments, and leaves
    the state as it was: no instance is created and nothing is called. *)
Theorem Constructor_abstract_refuses
  (unresolved : string -> RunTimeError)
  (body : FuncObject -> list positive -> gmap string positive ->
          gmap positive Object -> Result positive * gmap positive Object)
  (c : DeclClassType) (params : list positive)
  (kw_params : gmap string positive) (s : State)
  (Habstract : abstract_ c = true) :
  Constructor unresolved body c params kw_params s
  = (Throw {| code := INCOMPATIBLE_TYPE |}, s).
Proof. unfold Constructor. rewrite Habstract. reflexivity. Qed.

(** C6, as amended. For every declared class type whose [abstract_] flag is
    not set, the constructor allocates a new [DeclClassObject] (a handle the
    store did not hold) with its [self_] back-reference set to itself and,
    exactly when the symbol [__init__] exists in the symbol-table stack of
    the class and is of function kind, calls [__init__] with the new
    instance prepended to the arguments; otherwise it calls nothing. Every
    result that is not an exception is the new instance. *)
Theorem Constructor_allocates_and_calls_init
  (unresolved : string -> RunTimeError)
  (body : FuncObject -> list positive -> gmap string positive ->
          gmap positive Object -> Result positive * gmap positive Object)
  (c : DeclClassType) (params : list positive)
  (kw_params : gmap string positive) (s : State)
  (Hconcrete : abstract_ c = false) :
  let obj := fresh (dom (heap s)) in
  let instance := new_instance (name_ (as_TypeObject c)) obj in
  let s1 := {| heap := <[obj := instance]> (heap s); calls := calls s |} in
  heap s !! obj = None /\
  NewDeclObject (name_ (as_TypeObject c)) s = (Ok obj, s1) /\
  (exists r s', Constructor unresolved body c params kw_params s = (r, s') /\
     (forall p, r = Ok p -> p = obj) /\
     match init_function c (heap s1) with
     | Some f =>
       calls s' = (calls s ++ [(f, obj :: params, kw_params)])%list /\
       heap s' = snd (body f (obj :: params) kw_params (heap s1)) /\
       (forall e, r = Throw e <->
                  fst (body f (obj :: params) kw_params (heap s1)) = Throw e)
     | None =>
       calls s' = calls s /\ r = Ok obj /\ heap s' !! obj = Some instance
     end).
Proof.
  intros obj instance s1. split; [apply fresh_not_in_heap|].
  split; [apply NewDeclObject_spec|].
  pose proof (Constructor_not_abstract unresolved body c params kw_params s
                Hconcrete) as H.
  cbv zeta in H. fold obj in H. fold instance in H. fold s1 in H.
  destruct (init_function c (heap s1)) as [f|].
  - rewrite H. eexists _, _. split; [reflexivity|]. simpl.
    destruct (body f (obj :: params) kw_params (<[obj:=instance]> (heap s)))
      as [[r|err] h]; simpl; repeat split; congruence.
  - destruct H as (s' & -> & Hcalls & Hobj).
    eexists _, _. split; [reflexivity|]. repeat split; try done. congruence.
Qed.

(** ** Dunder methods of declared instances *)

(** C5, as amended. When the user-defined [__print__] returns an object
    whose kind is not STRING, [Print] throws INCOMPATIBLE_TYPE; when
    [__len__] or [__hash__] returns an object whose kind is not INT, [Len]
    or [Hash] throws INCOMPATIBLE_TYPE; with the expected kind they return
    the value. [ObjString] makes no such check: it returns the object
    [__str__] returned, whatever its kind. *)
Theorem dunder_return_kinds
  (unresolved : string -> RunTimeError)
  (body : FuncObject -> list positive -> gmap string positive ->
          gmap positive Object -> Result positive * gmap positive Object)
  (unary_params : positive -> list positive)
  (c : DeclClassType) (self : positive) (s : State) :
  let dunder := Caller_self unresolved body unary_params c self in
  (forall obj s', dunder "__print__" s = (Ok obj, s') ->
     Print unresolved body unary_params c self s =
     if bool_decide (type (deref (heap s') obj) = STRING)
     then (Ok (StringObject_value (deref (heap s') obj)), s')
     else (Throw {| code := INCOMPATIBLE_TYPE |}, s')) /\
  (forall obj s', dunder "__len__" s = (Ok obj, s') ->
     Len unresolved body unary_params c self s =
     if bool_decide (type (deref (heap s') obj) = INT)
     then (Ok (IntObject_value (deref (heap s') obj)), s')
     else (Throw {| code := INCOMPATIBLE_TYPE |}, s')) /\
  (forall obj s', dunder "__hash__" s = (Ok obj, s') ->
     Hash unresolved body unary_params c self s =
     if bool_decide (type (deref (heap s') obj) = INT)
     then (Ok (IntObject_value (deref (heap s') obj) mod 2 ^ 64)%Z, s')
     else (Throw {| code := INCOMPATIBLE_TYPE |}, s')) /\
  (forall obj s', dunder "__str__" s = (Ok obj, s') ->
     ObjString unresolved body unary_params c self s = (Ok obj, s')).
Proof.
  intros dunder. unfold Print, Len, Hash, ObjString. fold dunder.
  repeat split; intros obj s' H; try done;
    rewrite bind_run, H, bind_run; unfold load at 1;
    case_bool_decide; case_bool_decide; done.
Qed.

(** ** Equality of type objects *)



(** ** Container type constructors *)

(** C10. The constructor of a container type (array, map, tuple) throws a
    RunTimeError of code FUNC_PARAMS, and leaves the state alone, when the
    number of arguments is not exactly 1. Called with exactly one argument
    it returns the copy [Copy()] makes of it: a handle the store did not
    hold, with the value of the argument, while the argument and every other
    object of the store stay as they were. *)
Theorem ContainerType_Constructor_spec
  (this : TypeObject) (params : list positive) (s : State) :
  (length params ≠ 1%nat ->
     ContainerType_Constructor this params s
     = (Throw {| code := FUNC_PARAMS |}, s)) /\
  (forall p o, params = [p] -> heap s !! p = Some o ->
     ContainerType_Constructor this params s = Copy p s /\
     exists q s', Copy p s = (Ok q, s') /\
       q ≠ p /\ heap s !! q = None /\ heap s' !! q = Some o /\
       heap s' !! p = Some o /\
       forall p' o', heap s !! p' = Some o' -> heap s' !! p' = Some o').
Proof.
  unfold ContainerType_Constructor. split.
  - intros Hlen. apply Nat.eqb_neq in Hlen. by rewrite Hlen.
  - intros p o -> Hp. simpl. split; [reflexivity|].
    destruct (Copy_spec p o s Hp) as (q & -> & Hq & Hne).
    eexists q, _. split; [reflexivity|]. simpl. repeat split; try done.
    + apply lookup_insert_eq.
    + by rewrite lookup_insert_ne.
    + intros p' o' Hp'. rewrite lookup_insert_ne; [done|].
      intros ->. congruence.
Qed.

(** ** Bookkeeping of the processes of a job *)

Section JobFacts.

Import CmdExec.
Open Scope Z_scope.

Lemma processes_stopped_range (ps : list Process) :
  processes_stopped ps = 0 \/ processes_stopped ps = 1.
Proof.
  induction ps as [|p ps IH]; simpl; [by right|].
  destruct (negb (completed_ p) && negb (stopped_ p)); [by left|done].
Qed.

Lemma processes_stopped_1 (ps : list Process) :
  processes_stopped ps = 1 <->
  forall p, p ∈ ps -> completed_ p = true \/ stopped_ p = true.
Proof.
  induction ps as [|p ps IH]; simpl.
  - split; [|done]. intros _ p Hp. inversion Hp.
  - destruct (completed_ p) eqn:Hc, (stopped_ p) eqn:Hs; simpl;
      try (rewrite IH; split;
           [ intros H q Hq; apply elem_of_cons in Hq as [->|Hq]; [tauto|auto]
           | intros H q Hq; apply H; by apply elem_of_cons; right ]).
    split; [discriminate|]. intros H.
    destruct (H p) as [?|?]; [by apply elem_of_cons; left|congruence..].
Qed.

Lemma processes_stopped_0 (ps : list Process) :
  processes_stopped ps = 0 <->
  exists p, p ∈ ps /\ completed_ p = false /\ stopped_ p = false.
Proof.
  induction ps as [|p ps IH]; simpl.
  - split; [discriminate|]. intros (p & Hp & _). inversion Hp.
  - destruct (completed_ p) eqn:Hc, (stopped_ p) eqn:Hs; simpl;
      try (rewrite IH; split;
           [ intros (q & Hq & H); exists q; split; [by apply elem_of_cons; right|done]
           | intros (q & Hq & H1 & H2);
             apply elem_of_cons in Hq as [->|Hq]; [congruence|eauto] ]).
    split; [|done]. intros _. exists p. split; [by apply elem_of_cons; left|done].
Qed.

Lemma processes_completed_1 (ps : list Process) :
  processes_completed ps = 1 <-> forall p, p ∈ ps -> completed_ p = true.
Proof.
  induction ps as [|p ps IH]; simpl.
  - split; [|done]. intros _ p Hp. inversion Hp.
  - destruct (completed_ p) eqn:Hc; simpl.
    + rewrite IH. split.
      * intros H q Hq. apply elem_of_cons in Hq as [->|Hq]; auto.
      * intros H q Hq. apply H. by apply elem_of_cons; right.
    + split; [discriminate|]. intros H.
      rewrite (H p) in Hc; [discriminate|by apply elem_of_cons; left].
Qed.

Lemma completed_is_stopped (ps : list Process) :
  processes_completed ps = 1 -> processes_stopped ps = 1.
Proof.
  rewrite processes_completed_1, processes_stopped_1. intros H p Hp. auto.
Qed.

End JobFacts.

(** C9. A job whose processes are all marked completed reports itself as
    stopped: [JobIsStopped] returns 1 (as [JobIsCompleted] does), also when
    no process is marked stopped, since [JobIsStopped] returns 0 exactly
    when some process is neither completed nor stopped. *)
Theorem JobIsStopped_of_completed_job (j : CmdExec.Job)
  (Hcompleted : forall p, p ∈ CmdExec.process_ j ->
                          CmdExec.completed_ p = true) :
  CmdExec.JobIsStopped j = 1%Z /\
  CmdExec.JobIsCompleted j = 1%Z /\
  (forall j' : CmdExec.Job,
     CmdExec.JobIsStopped j' = 0%Z <->
     exists p, p ∈ CmdExec.process_ j' /\
       CmdExec.completed_ p = false /\ CmdExec.stopped_ p = false).
Proof.
  assert (CmdExec.JobIsCompleted j = 1%Z) as Hc
    by (by apply processes_completed_1).
  split; [by apply completed_is_stopped|]. split; [done|].
  intros j'. apply processes_stopped_0.
Qed.

(** ** Waiting for a job *)

Section WaitFacts.

Import CmdExec.
Open Scope Z_scope.
Open Scope list_scope.

Lemma processes_completed_range (ps : list Process) :
  processes_completed ps = 0 \/ processes_completed ps = 1.
Proof.
  induction ps as [|p ps IH]; simpl; [by right|].
  destruct (negb (completed_ p)); [by left|done].
Qed.

Lemma mark_first_None (pid status : Z) (ps : list Process) :
  mark_first pid status ps = None <-> forall p, p ∈ ps -> pid_ p ≠ pid.
Proof.
  induction ps as [|p ps IH]; simpl.
  - split; [|done]. intros _ q Hq. inversion Hq.
  - destruct (Z.eqb_spec (pid_ p) pid) as [Heq|Hne].
    + split; [discriminate|]. intros H. exfalso.
      apply (H p); [by apply elem_of_cons; left|done].
    + rewrite fmap_None, IH. split.
      * intros H q Hq. apply elem_of_cons in Hq as [->|Hq]; auto.
      * intros H q Hq. apply H. by apply elem_of_cons; right.
Qed.

Lemma mark_first_found (pid status : Z) (pre post : list Process)
  (p : Process) :
  (forall q, q ∈ pre -> pid_ q ≠ pid) -> pid_ p = pid ->
  mark_first pid status (pre ++ p :: post)
  = Some (pre ++ mark status p :: post).
Proof.
  intros Hpre Hp. induction pre as [|q pre IH]; simpl.
  - by rewrite Hp, Z.eqb_refl.
  - destruct (Z.eqb_spec (pid_ q) pid) as [Heq|Hne].
    + exfalso. apply (Hpre q); [by apply elem_of_cons; left|done].
    + rewrite IH; [done|]. intros r Hr. apply Hpre. by apply elem_of_cons; right.
Qed.

Lemma mark_first_pids (pid status : Z) (ps ps' : list Process) :
  mark_first pid status ps = Some ps' -> pid_ <$> ps' = pid_ <$> ps.
Proof.
  revert ps'. induction ps as [|p ps IH]; simpl; [discriminate|].
  intros ps'. destruct (pid_ p =? pid).
  - intros [= <-]. simpl. f_equal. unfold mark. by destruct (WIFSTOPPED status).
  - destruct (mark_first pid status ps) as [ps1|]; [|discriminate].
    intros [= <-]. simpl. f_equal. by apply IH.
Qed.

(** [MarkProcessStatus] returns 0 after marking a process of the job, and
    -1, leaving the job alone, when the answer reports none of them. *)
Lemma MarkProcessStatus_result (err pid status : Z) (j : Job) :
  (exists ps, 0 < pid /\ mark_first pid status (process_ j) = Some ps /\
     MarkProcessStatus err pid status j = (0, set_process ps j)) \/
  (reports_none pid (process_ j) /\
     MarkProcessStatus err pid status j = (-1, j)).
Proof.
  unfold MarkProcessStatus, reports_none.
  destruct (Z.ltb_spec 0 pid) as [Hpos|Hneg].
  - destruct (mark_first pid status (process_ j)) as [ps|] eqn:Hm.
    + left. eauto.
    + right. split; [|done]. right.
      by apply (proj1 (mark_first_None pid status (process_ j))).
  - right. split; [left; lia|]. by destruct ((pid =? 0) || (err =? ECHILD)).
Qed.

(** The world after [waitpid] took the answer whose [errno] is [err]. *)
Lemma wait_step_run (j : Job) (w : World) :
  match waits w with
  | [] => wait_step j w = NoAnswer
  | (pid, status, err) :: rest =>
    exists w',
      wait_step j w =
      Returned
        (let j1 := set_job_status (Z.lor (job_status_ j) status) j in
         let r := fst (MarkProcessStatus err pid status j1) in
         let j2 := snd (MarkProcessStatus err pid status j1) in
         ((r =? 0) && (JobIsStopped j2 =? 0) && (JobIsCompleted j2 =? 0), j2))
        w' /\
      waits w' = rest /\
      trace w' = (trace w ++ [sys_waitpid WAIT_ANY WUNTRACED])%list
  end.
Proof.
  unfold wait_step, mbind, OS_bind, waitpid, get_errno, mret, OS_ret.
  destruct (waits w) as [|[[pid status] err] rest]; [done|]. simpl.
  destruct (MarkProcessStatus _ _ _ _) as [r j2]. simpl. eauto.
Qed.

(** Fuel above the number of answers left is never used up. *)
Lemma wait_loop_fuel (n m : nat) (j : Job) (w : World) :
  (length (waits w) < n)%nat -> (length (waits w) < m)%nat ->
  wait_loop n j w = wait_loop m j w.
Proof.
  revert m j w. induction n as [|n IH]; intros m j w Hn Hm; [lia|].
  destruct m as [|m]; [lia|]. simpl. unfold mbind, OS_bind.
  pose proof (wait_step_run j w) as Hs.
  destruct (waits w) as [|[[pid status] err] rest] eqn:Hw.
  - by rewrite Hs.
  - destruct Hs as (w' & -> & Hrest & _). cbv zeta.
    match goal with |- context [(?b && ?c && ?d, _)] =>
      destruct (b && c && d) end; [|done].
    apply IH; rewrite Hrest; simpl in *; lia.
Qed.

Lemma wait_loop_returned (n : nat) (j j' : Job) (w w' : World) :
  wait_loop n j w = Returned j' w' ->
  (JobIsStopped j' = 1 \/
   exists pre pid status err,
     waits w = (pre ++ (pid, status, err) :: waits w')%list /\
     reports_none pid (process_ j')) /\
  (exists k, (0 < k)%nat /\
     trace w' = (trace w ++ repeat (sys_waitpid WAIT_ANY WUNTRACED) k)%list) /\
  pid_ <$> process_ j' = pid_ <$> process_ j.
Proof.
  revert j w. induction n as [|n IH]; intros j w; [discriminate|].
  simpl. unfold mbind, OS_bind.
  pose proof (wait_step_run j w) as Hs.
  destruct (waits w) as [|[[pid status] err] rest] eqn:Hw.
  - by rewrite Hs.
  - destruct Hs as (w1 & -> & Hrest & Htrace). cbv zeta.
    set (j1 := set_job_status (Z.lor (job_status_ j) status) j).
    destruct (MarkProcessStatus_result err pid status j1)
      as [(ps & Hpos & Hm & ->)|[Hnone ->]]; simpl.
    + fold (JobIsStopped (set_process ps j1)).
      destruct (JobIsStopped (set_process ps j1) =? 0) eqn:Hst; simpl.
      * destruct (JobIsCompleted (set_process ps j1) =? 0) eqn:Hco; simpl.
        -- intros Hloop. destruct (IH _ _ Hloop)
             as (Hdone & (k & Hk & Htr) & Hpids).
           split; [|split].
           ++ destruct Hdone as [?|(pre & pid' & st' & err' & Hpre & Hn)];
                [by left|right].
              exists ((pid, status, err) :: pre), pid', st', err'.
              split; [|done]. rewrite Hrest in Hpre. by rewrite Hpre.
           ++ exists (S k). split; [lia|]. rewrite Htr, Htrace.
              by rewrite <- app_assoc.
           ++ rewrite Hpids. simpl. by eapply mark_first_pids.
        -- intros [= <- <-]. split; [|split].
           ++ left. apply completed_is_stopped.
              apply Z.eqb_neq in Hco. unfold JobIsCompleted in Hco.
              destruct (processes_completed_range
                          (process_ (set_process ps j1))); [tauto|done].
           ++ exists 1%nat. split; [lia|done].
           ++ simpl. by eapply mark_first_pids.
      * intros [= <- <-]. split; [|split].
        -- left. apply Z.eqb_neq in Hst. unfold JobIsStopped in *.
           destruct (processes_stopped_range
                       (process_ (set_process ps j1))); [tauto|done].
        -- exists 1%nat. split; [lia|done].
        -- simpl. by eapply mark_first_pids.
    + intros [= <- <-]. split; [|split].
      * right. exists [], pid, status, err. simpl. by rewrite Hrest.
      * exists 1%nat. split; [lia|done].
      * done.
Qed.

End WaitFacts.

(** ** Launching a job *)

Section LaunchFacts.

Import CmdExec.
Open Scope Z_scope.
Open Scope list_scope.

Variable env : EnvShell.
Variable LookupCmd : string -> option CmdEntryType.
Variable CmdDeclExec : list string -> OS unit.
Variable exec_found : string -> bool.

Lemma keeps_waits_ret {A} (a : A) : keeps_waits (mret a : OS A).
Proof. by intros w a' w' [= _ <-]. Qed.

Lemma keeps_waits_bind {A B} (m : OS A) (k : A -> OS B) :
  keeps_waits m -> (forall a, keeps_waits (k a)) -> keeps_waits (m ≫= k).
Proof.
  intros Hm Hk w b w'. unfold mbind, OS_bind.
  destruct (m w) as [a w1| | | |] eqn:Hmw; try discriminate.
  intros Hkw. rewrite (Hk _ _ _ _ Hkw). by eapply Hm.
Qed.

Lemma never_keeps {A} (m : OS A) : never_returns m -> keeps_waits m.
Proof. intros H w a w' Hm. by destruct (H w a w'). Qed.

Lemma never_bind_r {A B} (m : OS A) (k : A -> OS B) :
  (forall a, never_returns (k a)) -> never_returns (m ≫= k).
Proof.
  intros Hk w b w'. unfold mbind, OS_bind.
  destruct (m w) as [a w1| | | |]; try discriminate. apply Hk.
Qed.

Lemma never_bind_l {A B} (m : OS A) (k : A -> OS B) :
  never_returns m -> never_returns (m ≫= k).
Proof.
  intros Hm w b w'. unfold mbind, OS_bind.
  destruct (m w) as [a w1| | | |] eqn:Hmw; try discriminate.
  by destruct (Hm w a w1).
Qed.

Lemma never_exit {A} (status : Z) : never_returns (exit status : OS A).
Proof. by intros w a w'. Qed.

Lemma never_throw_error {A} (c : ErrorCode) :
  never_returns (throw_error c : OS A).
Proof. by intros w a w'. Qed.

Lemma keeps_waits_call (c : Syscall) : keeps_waits (call c).
Proof. by intros w a w' [= _ <-]. Qed.

Lemma keeps_waits_pipe : keeps_waits pipe.
Proof.
  intros w a w'. unfold pipe. destruct (pipes w); [done|]. by intros [= _ <-].
Qed.

Lemma keeps_waits_fork : keeps_waits fork.
Proof.
  intros w a w'. unfold fork. destruct (forks w); [done|]. by intros [= _ <-].
Qed.

Lemma keeps_waits_kill (pid sig : Z) : keeps_waits (kill pid sig).
Proof.
  intros w a w'. unfold kill. destruct (kills w); [done|]. by intros [= _ <-].
Qed.

Lemma keeps_waits_tcgetattr (fd : Z) : keeps_waits (tcgetattr fd).
Proof. by intros w a w' [= _ <-]. Qed.

Lemma keeps_waits_tcsetattr (fd actions modes : Z) :
  keeps_waits (tcsetattr fd actions modes).
Proof. by intros w a w' [= _ <-]. Qed.

Lemma keeps_waits_when (b : bool) (m : OS unit) :
  keeps_waits m -> keeps_waits (when b m).
Proof. intros H. destruct b; [done|apply keeps_waits_ret]. Qed.

Ltac keeps :=
  repeat first
    [ apply keeps_waits_ret | apply keeps_waits_call | apply keeps_waits_pipe
    | apply keeps_waits_fork | apply keeps_waits_kill
    | apply keeps_waits_tcgetattr | apply keeps_waits_tcsetattr
    | apply keeps_waits_when
    | apply never_keeps, never_exit
    | apply keeps_waits_bind; [|intros ?]
    | match goal with
      | |- keeps_waits (if ?b then _ else _) => destruct b
      | |- keeps_waits (match ?x with _ => _ end) => destruct x
      end ].

(** The child never comes back from [LaunchProcess]: it exits, becomes the
    program it executes, or throws. *)
Lemma LaunchProcess_never_returns (p : Process)
  (infile outfile errfile pgid : Z) (foreground : bool) :
  never_returns
    (LaunchProcess env LookupCmd CmdDeclExec exec_found p infile outfile
       errfile pgid foreground).
Proof.
  unfold LaunchProcess. do 4 (apply never_bind_r; intros ?).
  destruct (LookupCmd _); apply never_bind_r; intros ?;
    [apply never_exit|apply never_throw_error].
Qed.

Lemma launch_loop_keeps_waits (foreground : Z) (n i : nat) (infile : Z)
  (mypipe : Z * Z) (j : Job) :
  keeps_waits
    (launch_loop env LookupCmd CmdDeclExec exec_found foreground n i infile
       mypipe j).
Proof.
  revert i infile mypipe j. induction n as [|n IH]; intros i infile mypipe j;
    simpl; [apply keeps_waits_ret|].
  apply keeps_waits_bind; [keeps|]. intros [outfile mypipe'].
  apply keeps_waits_bind; [keeps|]. intros pid.
  apply keeps_waits_bind.
  - destruct (pid =? 0).
    + destruct (process_ j !! i); [|apply keeps_waits_ret].
      apply never_keeps, never_bind_l, LaunchProcess_never_returns.
    + keeps.
  - intros j'. keeps. apply IH.
Qed.

Lemma WaitForJob_returned (j j' : Job) (w w' : World) :
  WaitForJob j w = Returned j' w' ->
  (JobIsStopped j' = 1 \/
   exists pre pid status err,
     waits w = pre ++ (pid, status, err) :: waits w' /\
     reports_none pid (process_ j')) /\
  (exists k, (0 < k)%nat /\
     trace w' = trace w ++ repeat (sys_waitpid WAIT_ANY WUNTRACED) k) /\
  pid_ <$> process_ j' = pid_ <$> process_ j.
Proof. apply wait_loop_returned. Qed.

(** Without a child to report ([pid == 0], or a failure with ECHILD) the
    loop of [WaitForJob] ends after this answer. *)
Lemma WaitForJob_no_child (j : Job) (w : World) (pid status err : Z)
  (rest : list (Z * Z * Z)) :
  waits w = (pid, status, err) :: rest ->
  pid = 0 \/ (pid < 0 /\ err = ECHILD) ->
  exists w',
    WaitForJob j w
    = Returned (set_job_status (Z.lor (job_status_ j) status) j) w' /\
    waits w' = rest.
Proof.
  intros Hw Hpid. unfold WaitForJob. simpl. unfold mbind, OS_bind.
  pose proof (wait_step_run j w) as Hs. rewrite Hw in Hs.
  destruct Hs as (w' & -> & Hrest & _). cbv zeta.
  assert (MarkProcessStatus err pid status
            (set_job_status (Z.lor (job_status_ j) status) j)
          = (-1, set_job_status (Z.lor (job_status_ j) status) j)) as ->.
  { unfold MarkProcessStatus. destruct (Z.ltb_spec 0 pid); [lia|].
    by destruct ((pid =? 0) || (err =? ECHILD)). }
  simpl. eauto.
Qed.

(** A launch in the foreground ends with [WaitForJob]: in a shell that is
    not interactive directly, in an interactive one inside
    [PutJobInForeground]. *)
Lemma LaunchJob_foreground_inv (mypipe : Z * Z) (foreground : Z)
  (j j' : Job) (w w' : World) :
  foreground <> 0 ->
  LaunchJob env LookupCmd CmdDeclExec exec_found mypipe foreground j w
  = Returned j' w' ->
  exists j1 w1 j2 w2,
    waits w1 = waits w /\
    WaitForJob j1 w1 = Returned j2 w2 /\
    process_ j' = process_ j2 /\ waits w' = waits w2.
Proof.
  intros Hfg. unfold LaunchJob, mbind at 1, OS_bind at 1.
  destruct (launch_loop _ _ _ _ _ _ _ _ _ _ w) as [j1 w1| | | |] eqn:Hloop;
    try discriminate.
  apply launch_loop_keeps_waits in Hloop.
  apply Z.eqb_neq in Hfg. rewrite Hfg. simpl.
  destruct (shell_is_interactive env); simpl.
  - unfold PutJobInForeground, mbind, OS_bind, call, when, tcgetattr,
      tcsetattr, mret, OS_ret. simpl.
    destruct (WaitForJob j1 _) as [j2 w2| | | |] eqn:Hwait; try discriminate.
    intros [= <- <-]. eexists j1, _, j2, w2.
    split; [|split; [exact Hwait|done]]. done.
  - intros Hwait. by exists j1, w1, j', w'.
Qed.

End LaunchFacts.

(** C7, as amended. When a launch in the foreground returns, every process
    of the job is marked completed or stopped, unless the wait ended on an
    answer of [waitpid] that reported none of the processes of the job (no
    child: [pid <= 0], as for [pid == 0] and ECHILD; or a child of another
    job). [WaitForJob] calls only [waitpid(WAIT_ANY, &status, WUNTRACED)],
    at least once; [MarkProcessStatus] records the status in the first
    process whose pid matches and returns 0, setting [stopped_] when
    [WIFSTOPPED(status)] holds and [completed_] otherwise; and the loop ends
    on [pid == 0] and on ECHILD. *)
Theorem LaunchJob_foreground_waits
  (env : CmdExec.EnvShell)
  (LookupCmd : string -> option CmdExec.CmdEntryType)
  (CmdDeclExec : list string -> CmdExec.OS unit)
  (exec_found : string -> bool)
  (mypipe : Z * Z) (foreground : Z)
  (j j' : CmdExec.Job) (w w' : CmdExec.World)
  (Hforeground : foreground <> 0%Z)
  (Hreturned :
     CmdExec.LaunchJob env LookupCmd CmdDeclExec exec_found mypipe
       foreground j w = CmdExec.Returned j' w') :
  ((forall p, p ∈ CmdExec.process_ j' ->
      CmdExec.completed_ p = true \/ CmdExec.stopped_ p = true) \/
   exists pre pid status err,
     CmdExec.waits w
     = (pre ++ (pid, status, err) :: CmdExec.waits w')%list /\
     CmdExec.reports_none pid (CmdExec.process_ j')) /\
  (forall j0 w0 j1 w1,
     CmdExec.WaitForJob j0 w0 = CmdExec.Returned j1 w1 ->
     exists k, (0 < k)%nat /\
       CmdExec.trace w1
       = (CmdExec.trace w0 ++
          repeat (CmdExec.sys_waitpid CmdExec.WAIT_ANY CmdExec.WUNTRACED) k)%list) /\
  (forall err pid status j0 pre p post,
     (0 < pid)%Z ->
     CmdExec.process_ j0 = (pre ++ p :: post)%list ->
     (forall q, q ∈ pre -> CmdExec.pid_ q <> pid) ->
     CmdExec.pid_ p = pid ->
     CmdExec.MarkProcessStatus err pid status j0
     = (0%Z, CmdExec.set_process
               (pre ++ CmdExec.mark status p :: post)%list j0) /\
     CmdExec.status_ (CmdExec.mark status p) = status /\
     if CmdExec.WIFSTOPPED status
     then CmdExec.stopped_ (CmdExec.mark status p) = true /\
          CmdExec.completed_ (CmdExec.mark status p) = CmdExec.completed_ p
     else CmdExec.completed_ (CmdExec.mark status p) = true /\
          CmdExec.stopped_ (CmdExec.mark status p) = CmdExec.stopped_ p) /\
  (forall j0 w0 pid status err rest,
     CmdExec.waits w0 = (pid, status, err) :: rest ->
     pid = 0%Z \/ (pid < 0 /\ err = CmdExec.ECHILD)%Z ->
     exists w1,
       CmdExec.WaitForJob j0 w0
       = CmdExec.Returned
           (CmdExec.set_job_status
              (Z.lor (CmdExec.job_status_ j0) status) j0) w1 /\
       CmdExec.waits w1 = rest).
Proof.
  split; [|split; [|split]].
  - destruct (LaunchJob_foreground_inv _ _ _ _ _ _ _ _ _ _ Hforeground
                Hreturned) as (j1 & w1 & j2 & w2 & Hw1 & Hwait & Hps & Hw').
    destruct (WaitForJob_returned _ _ _ _ Hwait) as (Hdone & _ & _).
    rewrite Hps, Hw', <- Hw1.
    destruct Hdone as [Hst|Hnone]; [left|by right].
    by apply processes_stopped_1.
  - intros j0 w0 j1 w1 Hwait.
    by destruct (WaitForJob_returned _ _ _ _ Hwait) as (_ & Htr & _).
  - intros err pid status j0 pre p post Hpos Hps Hpre Hp.
    split; [|split].
    + unfold CmdExec.MarkProcessStatus.
      destruct (Z.ltb_spec 0 pid); [|lia].
      by rewrite Hps, (mark_first_found pid status pre post p Hpre Hp).
    + unfold CmdExec.mark. by destruct (CmdExec.WIFSTOPPED status).
    + unfold CmdExec.mark. by destruct (CmdExec.WIFSTOPPED status).
  - intros j0 w0 pid status err rest. apply WaitForJob_no_child.
Qed.

(** * The statements on the concrete inputs *)



(** Reading [x] copies the integer; reading [a] returns the handle of the
    array itself. *)
Lemma ExecIdentifier_witness :
  (exists p s1,
     ExecIdentifier ex_unresolved ex_scope "x" ex_state = (Ok p, s1) /\
     p ≠ 1%positive /\ heap s1 !! p = Some (IntObject 5) /\
     forall o', heap (snd (store p o' s1)) !! 1%positive = Some (IntObject 5)) /\
  ExecIdentifier ex_unresolved ex_scope "a" ex_state = (Ok 2%positive, ex_state).
Proof.
  split.
  - destruct (proj1 (ExecIdentifier_value_and_reference_semantics
                       ex_unresolved ex_scope "x"
                       {| object := 1%positive; global := false |}
                       (IntObject 5) ex_state eq_refl eq_refl) eq_refl)
      as (p & s1 & Hrun & _ & Hne & Hp & _ & Hstore & _).
    exists p, s1. auto.
  - apply (proj2 (ExecIdentifier_value_and_reference_semantics
                    ex_unresolved ex_scope "a"
                    {| object := 2%positive; global := false |}
                    (ArrayObject [1%positive]) ex_state eq_refl eq_refl)).
    reflexivity.
Defined.

(** Constructing the abstract class [A] throws and changes nothing. *)
Lemma Constructor_abstract_refuses_witness :
  Constructor ex_unresolved ex_body ex_class_A [1%positive] ∅ ex_state
  = (Throw {| code := INCOMPATIBLE_TYPE |}, ex_state).
Proof.
  apply (Constructor_abstract_refuses ex_unresolved ex_body ex_class_A).
  reflexivity.
Defined.

(** The claim C6 read for every declared class type fails on the abstract
    class [A]: its constructor allocates no instance, the store after the
    call is the store before it. *)
Lemma Constructor_abstract_allocates_nothing :
  abstract_ ex_class_A = true /\
  snd (Constructor ex_unresolved ex_body ex_class_A [] ∅ ex_state) = ex_state /\
  ~ exists p s',
      Constructor ex_unresolved ex_body ex_class_A [] ∅ ex_state = (Ok p, s').
Proof.
  split; [reflexivity|]. split; [reflexivity|]. intros (p & s' & H).
  discriminate H.
Qed.

(** Constructing [V] with one argument calls [__init__] on the new instance
    and that argument, and returns the new instance. *)
Lemma Constructor_allocates_and_calls_init_witness :
  exists s',
    Constructor ex_unresolved ex_body ex_class_V [1%positive] ∅ ex_state
    = (Ok 7%positive, s') /\
    calls s' = [(ex_init, [7%positive; 1%positive], ∅)] /\
    heap s' !! 7%positive = Some (new_instance "V" 7%positive).
Proof.
  destruct (Constructor_allocates_and_calls_init ex_unresolved ex_body
              ex_class_V [1%positive] ∅ ex_state eq_refl)
    as (_ & _ & r & s' & Hrun & _ & Hinit).
  change (init_function ex_class_V _) with (Some ex_init) in Hinit.
  destruct Hinit as (Hcalls & Hheap & Hthrow).
  exists s'. split; [|split].
  - rewrite Hrun. f_equal. destruct r as [p|e].
    + vm_compute in Hrun. by injection Hrun as <- _.
    + by destruct (proj1 (Hthrow e) eq_refl).
  - exact Hcalls.
  - rewrite Hheap. reflexivity.
Defined.

(** [__print__] of [V] returns an integer: [Print] throws
    INCOMPATIBLE_TYPE. *)
Lemma dunder_return_kinds_witness :
  exists s',
    Print ex_unresolved ex_body ex_unary_params ex_class_V 6%positive ex_state
    = (Throw {| code := INCOMPATIBLE_TYPE |}, s').
Proof.
  assert (Caller_self ex_unresolved ex_body ex_unary_params ex_class_V
            6%positive "__print__" ex_state
          = (Ok 1%positive,
             {| heap := heap ex_state;
                calls := [(ex_dunder, [6%positive], ∅)] |})) as Hcall
    by (vm_compute; reflexivity).
  eexists.
  rewrite (proj1 (dunder_return_kinds ex_unresolved ex_body ex_unary_params
                    ex_class_V 6%positive ex_state) _ _ Hcall).
  vm_compute. reflexivity.
Defined.

(** The claim C5 fails for [__str__]: it returns an integer here, and
    [ObjString] hands that integer back without throwing. *)
Lemma ObjString_returns_any_kind :
  exists obj s',
    ObjString ex_unresolved ex_body ex_unary_params ex_class_V 6%positive
      ex_state = (Ok obj, s') /\
    type (deref (heap s') obj) = INT /\
    type (deref (heap s') obj) ≠ STRING.
Proof.
  eexists 1%positive, _. split; [vm_compute; reflexivity|].
  split; [vm_compute; reflexivity|]. vm_compute. discriminate.
Qed.

(** [array()] throws FUNC_PARAMS; [array(a)] returns a copy of [a] and
    leaves [a] as it was. *)
Lemma ContainerType_Constructor_witness :
  ContainerType_Constructor ex_array_type [] ex_state
  = (Throw {| code := FUNC_PARAMS |}, ex_state) /\
  exists q s',
    ContainerType_Constructor ex_array_type [2%positive] ex_state = (Ok q, s')
    /\ q ≠ 2%positive
    /\ heap s' !! q = Some (ArrayObject [1%positive])
    /\ heap s' !! 2%positive = Some (ArrayObject [1%positive]).
Proof.
  split.
  - apply (proj1 (ContainerType_Constructor_spec ex_array_type [] ex_state)).
    discriminate.
  - destruct (proj2 (ContainerType_Constructor_spec ex_array_type
                       [2%positive] ex_state)
                2%positive (ArrayObject [1%positive]) eq_refl eq_refl)
      as (Hctor & q & s' & Hcopy & Hne & _ & Hq & Hp & _).
    exists q, s'. rewrite Hctor. auto.
Defined.

(** Both processes of the job have exited and none is stopped:
    [JobIsStopped] is 1. *)
Lemma JobIsStopped_of_completed_job_witness :
  CmdExec.JobIsStopped ex_job_done = 1%Z /\
  (forall p, p ∈ CmdExec.process_ ex_job_done -> CmdExec.stopped_ p = false).
Proof.
  assert (forall (P : CmdExec.Process -> Prop),
            (forall p, In p (CmdExec.process_ ex_job_done) -> P p) ->
            forall p, p ∈ CmdExec.process_ ex_job_done -> P p) as Hall.
  { intros P H p Hp. apply H. by apply list_elem_of_In. }
  split.
  - apply (JobIsStopped_of_completed_job ex_job_done). apply Hall.
    intros p [<-|[<-|[]]]; reflexivity.
  - apply Hall. intros p [<-|[<-|[]]]; reflexivity.
Defined.

(** The pipeline launched in the foreground, both children reported as
    exited: the launch returns with both processes completed. *)
Lemma LaunchJob_foreground_waits_witness :
  exists j' w',
    CmdExec.LaunchJob ex_env ex_LookupCmd ex_CmdDeclExec ex_exec_found
      (0, 0)%Z 1 ex_job (ex_world [(10, 0, 0); (11, 0, 0)]%Z)
    = CmdExec.Returned j' w' /\
    ((forall p, p ∈ CmdExec.process_ j' ->
        CmdExec.completed_ p = true \/ CmdExec.stopped_ p = true) \/
     exists pre pid status err,
       [(10, 0, 0); (11, 0, 0)]%Z
       = (pre ++ (pid, status, err) :: CmdExec.waits w')%list /\
       CmdExec.reports_none pid (CmdExec.process_ j')).
Proof.
  eexists _, _. split; [vm_compute; reflexivity|].
  refine (proj1 (LaunchJob_foreground_waits ex_env ex_LookupCmd
                   ex_CmdDeclExec ex_exec_found (0, 0)%Z 1 ex_job _
                   (ex_world [(10, 0, 0); (11, 0, 0)]%Z) _ _ _)).
  - discriminate.
  - vm_compute. reflexivity.
Defined.

(** The claim C7 fails when [waitpid] has no child to report: the launch in
    the foreground returns after the failure with ECHILD, and neither
    process of the pipeline is marked completed or stopped. *)
Lemma LaunchJob_foreground_returns_unmarked :
  exists j' w',
    CmdExec.LaunchJob ex_env ex_LookupCmd ex_CmdDeclExec ex_exec_found
      (0, 0)%Z 1 ex_job (ex_world [(-1, 0, CmdExec.ECHILD)]%Z)
    = CmdExec.Returned j' w' /\
    exists p, p ∈ CmdExec.process_ j' /\
      CmdExec.completed_ p = false /\ CmdExec.stopped_ p = false.
Proof.
  eexists _, _. split; [vm_compute; reflexivity|].
  eexists. split; [apply list_elem_of_here|]. split; reflexivity.
Qed.

(** * Further properties of the sources *)

(** ** Signatures *)

Section SignatureFacts.

Import AbstractMethods.

Lemma eq_true_inv (a b : AbstractMethod) :
  AbstractMethods.eq a b = true ->
  num_params_ b = num_params_ a /\ variadic_ b = variadic_ a /\
  (variadic_ a = true -> num_default_params_ b = num_default_params_ a).
Proof.
  unfold AbstractMethods.eq. destruct (variadic_ a) eqn:Hv.
  - rewrite !andb_true_iff, !N.eqb_eq, eqb_bool_true. tauto.
  - rewrite andb_true_iff, N.eqb_eq, eqb_bool_true. intuition congruence.
Qed.

Lemma eq_true_intro (a b : AbstractMethod) :
  num_params_ b = num_params_ a -> variadic_ b = variadic_ a ->
  (variadic_ a = true -> num_default_params_ b = num_default_params_ a) ->
  AbstractMethods.eq a b = true.
Proof.
  intros Hn Hv Hd. unfold AbstractMethods.eq. rewrite Hn, Hv, N.eqb_refl.
  destruct (variadic_ a); simpl; [|reflexivity].
  by rewrite Hd, N.eqb_refl.
Qed.

End SignatureFacts.

(** X1. Equality of abstract methods is an equivalence relation, although
    the operator reads the variadic flag of its left operand only: it is
    reflexive, symmetric and transitive. *)
Theorem AbstractMethod_eq_equivalence :
  (forall a, AbstractMethods.eq a a = true) /\
  (forall a b, AbstractMethods.eq a b = AbstractMethods.eq b a) /\
  (forall a b c, AbstractMethods.eq a b = true ->
     AbstractMethods.eq b c = true -> AbstractMethods.eq a c = true).
Proof.
  split; [|split].
  - intros a. by apply eq_true_intro.
  - assert (forall a b, AbstractMethods.eq a b = true ->
                        AbstractMethods.eq b a = true) as Hsym.
    { intros a b (Hn & Hv & Hd)%eq_true_inv.
      apply eq_true_intro; try done. intros Hb. symmetry. apply Hd. congruence. }
    intros a b. destruct (AbstractMethods.eq a b) eqn:Hab.
    + symmetry. by apply Hsym.
    + destruct (AbstractMethods.eq b a) eqn:Hba; [|done].
      apply Hsym in Hba. congruence.
  - intros a b c (Hn & Hv & Hd)%eq_true_inv (Hn' & Hv' & Hd')%eq_true_inv.
    apply eq_true_intro; try congruence.
    intros Ha. rewrite Hd', Hd; [done..|congruence].
Qed.

(** X2. Abstract methods that are equal accept the same functions: when
    [a == b], a function conforms to [a] exactly when it conforms to [b]. *)
Theorem AbstractMethod_eq_accepts_same_functions
  (a b : AbstractMethods.AbstractMethod) (f : FuncObject)
  (Hab : AbstractMethods.eq a b = true) :
  AbstractMethods.eq_func a f = AbstractMethods.eq_func b f /\
  AbstractMethods.ne_func a f = AbstractMethods.ne_func b f.
Proof.
  apply eq_true_inv in Hab as (Hn & Hv & Hd).
  assert (AbstractMethods.eq_func a f = AbstractMethods.eq_func b f) as H.
  { unfold AbstractMethods.eq_func. rewrite Hn, Hv.
    destruct (AbstractMethods.variadic_ a); [|done]. by rewrite Hd. }
  split; [done|]. unfold AbstractMethods.ne_func. by rewrite H.
Qed.

(** ** Inheriting methods *)

Section InsertFacts.

Import AbstractMethods.

Lemma insert_methods_list (l : list (string * AbstractMethod))
  (own : gmap string AbstractMethod) :
  NoDup l.*1 ->
  ((forall nm, nm ∈ l -> own !! nm.1 = None) ->
     insert_methods l own = Ok (list_to_map l ∪ own)) /\
  ((exists nm, nm ∈ l /\ is_Some (own !! nm.1)) ->
     insert_methods l own = Throw {| code := INCOMPATIBLE_TYPE |}).
Proof.
  revert own. induction l as [|[n m] l IH]; intros own Hnd.
  - split.
    + intros _. simpl. by rewrite (left_id_L ∅ (∪)).
    + intros (nm & Hin & _). inversion Hin.
  - rewrite fmap_cons in Hnd. apply NoDup_cons in Hnd as [Hn Hnd].
    simpl in Hn. simpl. split.
    + intros Hfree.
      pose proof (Hfree (n, m) ltac:(by apply elem_of_cons; left)) as Hown.
      simpl in Hown. rewrite Hown.
      destruct (IH (<[n:=m]> own) Hnd) as [Hok _]. rewrite Hok.
      * f_equal. rewrite <- insert_union_l. symmetry. apply insert_union_r.
        by apply not_elem_of_list_to_map_1.
      * intros [k x] Hin. simpl. rewrite lookup_insert_ne.
        -- apply (Hfree (k, x)). by apply elem_of_cons; right.
        -- intros ->. apply Hn. apply list_elem_of_fmap. by exists (k, x).
    + intros (nm & Hin & Hsome). destruct (own !! n) eqn:Hown; [done|].
      destruct (IH (<[n:=m]> own) Hnd) as [_ Hthrow]. apply Hthrow.
      apply elem_of_cons in Hin as [->|Hin].
      * simpl in Hsome. rewrite Hown in Hsome. by destruct Hsome.
      * exists nm. split; [done|]. destruct (decide (n = nm.1)) as [->|Hne].
        -- rewrite lookup_insert_eq. eauto.
        -- by rewrite lookup_insert_ne.
Qed.

Lemma free_or_held (l : list (string * AbstractMethod))
  (own : gmap string AbstractMethod) :
  (forall nm, nm ∈ l -> own !! nm.1 = None) \/
  (exists nm, nm ∈ l /\ is_Some (own !! nm.1)).
Proof.
  induction l as [|nm l [IH|(x & Hin & Hx)]].
  - left. intros nm Hin. inversion Hin.
  - destruct (own !! nm.1) eqn:Hown.
    + right. exists nm. split; [by apply elem_of_cons; left|]. rewrite Hown. eauto.
    + left. intros x [->|Hin]%elem_of_cons; auto.
  - right. exists x. split; [by apply elem_of_cons; right|done].
Qed.

(** Inserting the methods of a map: it succeeds, with the union, exactly
    when no name is held already. *)
Lemma insert_methods_map (m own : gmap string AbstractMethod) :
  (m ##ₘ own -> insert_methods (map_to_list m) own = Ok (m ∪ own)) /\
  (~ m ##ₘ own ->
   insert_methods (map_to_list m) own = Throw {| code := INCOMPATIBLE_TYPE |}).
Proof.
  destruct (insert_methods_list (map_to_list m) own (NoDup_fst_map_to_list m))
    as [Hok Hthrow].
  split.
  - intros Hdisj. rewrite Hok, list_to_map_to_list; [done|].
    intros [n x] Hin%elem_of_map_to_list. simpl.
    by eapply map_disjoint_Some_l.
  - intros Hnot. apply Hthrow.
    destruct (free_or_held (map_to_list m) own) as [Hfree|?]; [|done].
    exfalso. apply Hnot. apply map_disjoint_spec. intros n x y Hm Ho.
    pose proof (Hfree (n, x) ltac:(by apply elem_of_map_to_list)) as Hn.
    simpl in Hn. congruence.
Qed.

End InsertFacts.

(** ** Declaring a class *)

Lemma DeclClassType_new_total (name : string)
  (sym_table : list SymbolTable) (base : BaseType) (abstract : bool) :
  exists c,
    DeclClassType_new name sym_table base abstract = Ok c /\
    abstract_methods_ c = base_methods base /\
    abstract_ c = abstract /\
    as_TypeObject c = {| type_kind := TYPE; name_ := name |} /\
    symbol_table_stack c
    = {| table_type := CLASS_TABLE; entries := ∅ |} :: sym_table.
Proof.
  unfold DeclClassType_new. destruct base as [| |b]; simpl;
    try (eexists; repeat split; reflexivity).
  rewrite (proj1 (insert_methods_map (abstract_methods_ b) ∅))
    by apply map_disjoint_empty_r.
  eexists. split; [reflexivity|]. simpl. rewrite (right_id_L ∅ (∪)).
  repeat split.
Qed.

(** X3. The constructor of a declared class throws only what the
    constructor of its base class throws, which runs first and checks the
    base: the body that follows cannot throw, because its check for a
    duplicate name among the inherited methods cannot fire (the map starts
    empty and the names of the base are distinct). When the base class
    constructor returns, the class is built: it holds exactly the abstract
    methods of a declared base, none without one, and an empty CLASS_TABLE
    on top of its symbol-table stack. *)
Theorem DeclClassType_ctor_inherits (checked : Result unit) (name : string)
  (sym_table : list SymbolTable) (base : BaseType) (abstract : bool) :
  match DeclClassType_ctor checked name sym_table base abstract with
  | Throw e => checked = Throw e
  | Ok c =>
    checked = Ok tt /\
    DeclClassType_new name sym_table base abstract = Ok c /\
    abstract_methods_ c = base_methods base /\
    abstract_ c = abstract /\
    as_TypeObject c = {| type_kind := TYPE; name_ := name |} /\
    symbol_table_stack c
    = {| table_type := CLASS_TABLE; entries := ∅ |} :: sym_table
  end.
Proof.
  destruct (DeclClassType_new_total name sym_table base abstract)
    as (c & Hnew & Hrest).
  unfold DeclClassType_ctor. destruct checked as [[]|e]; [|done].
  rewrite Hnew. by split.
Qed.

Lemma DeclClassType_new_Ok (name : string) (sym_table : list SymbolTable)
  (base : BaseType) (abstract : bool) (c : DeclClassType) :
  DeclClassType_new name sym_table base abstract = Ok c ->
  abstract_methods_ c = base_methods base /\ abstract_ c = abstract.
Proof.
  unfold DeclClassType_new. destruct base as [| |b]; simpl;
    try (intros [= <-]; by split).
  rewrite (proj1 (insert_methods_map (abstract_methods_ b) ∅))
    by apply map_disjoint_empty_r.
  intros [= <-]. simpl. by rewrite (right_id_L ∅ (∪)).
Qed.

(** X4. On a class fresh from its constructor, declaring an abstract method
    succeeds exactly when the class is abstract and the name is neither
    inherited from the base nor an attribute of the class; the class then
    holds the inherited methods and the new one. Every refusal is a
    RunTimeError of code INCOMPATIBLE_TYPE. *)
Theorem AddAbstractMethod_after_new (ExistsAttr : string -> bool)
  (name : string) (sym_table : list SymbolTable) (base : BaseType)
  (abstract : bool) (c : DeclClassType)
  (Hnew : DeclClassType_new name sym_table base abstract = Ok c) :
  (forall n m c',
     AddAbstractMethod ExistsAttr n m c = Ok c' <->
     abstract = true /\ base_methods base !! n = None /\
     ExistsAttr n = false /\
     c' = set_abstract_methods (<[n := m]> (base_methods base)) c) /\
  (forall n m e,
     AddAbstractMethod ExistsAttr n m c = Throw e ->
     code e = INCOMPATIBLE_TYPE).
Proof.
  apply DeclClassType_new_Ok in Hnew as [Hm Ha].
  unfold AddAbstractMethod. rewrite Hm, Ha. split.
  - intros n m c'. destruct abstract; simpl; [|by intuition].
    destruct (base_methods base !! n); [by intuition|].
    destruct (ExistsAttr n); [by intuition|].
    split; [intros [= <-]; by repeat split|]. by intros (_ & _ & _ & ->).
  - intros n m e. destruct abstract; simpl; [|by intros [= <-]].
    destruct (base_methods base !! n); [by intros [= <-]|].
    destruct (ExistsAttr n); [by intros [= <-]|done].
Qed.

(** X5. A class that is not abstract cannot declare abstract methods of its
    own, so [CheckAbstractMethodsCompatibility] on a class fresh from its
    constructor succeeds exactly when every abstract method of the base is
    implemented; without a declared base it always succeeds. *)
Theorem concrete_class_answers_for_its_base
  (SearchAttr : string -> Result Object)
  (name : string) (sym_table : list SymbolTable) (base : BaseType)
  (c : DeclClassType)
  (Hnew : DeclClassType_new name sym_table base false = Ok c) :
  (forall ExistsAttr n m,
     AddAbstractMethod ExistsAttr n m c
     = Throw {| code := INCOMPATIBLE_TYPE |}) /\
  (CheckAbstractMethodsCompatibility SearchAttr c = Ok tt <->
   forall n m, base_methods base !! n = Some m ->
               implemented SearchAttr n m) /\
  (base_methods base = ∅ ->
   CheckAbstractMethodsCompatibility SearchAttr c = Ok tt).
Proof.
  apply DeclClassType_new_Ok in Hnew as [Hm Ha].
  assert (CheckAbstractMethodsCompatibility SearchAttr c = Ok tt <->
          forall n m, base_methods base !! n = Some m ->
                      implemented SearchAttr n m) as Hcheck.
  { unfold CheckAbstractMethodsCompatibility. rewrite Ha, Hm.
    rewrite check_methods_Ok. split.
    - intros H n m Hn. apply H. by apply elem_of_map_to_list.
    - intros H n m Hn. apply H. by apply elem_of_map_to_list. }
  split; [|split; [done|]].
  - intros EA n m. unfold AddAbstractMethod. by rewrite Ha.
  - intros Hempty. apply Hcheck. intros n m. by rewrite Hempty.
Qed.

(** ** Conformance to interfaces *)

Section InterfaceFacts.

Import AbstractMethods.

Variable SearchAttr : string -> Result Object.

Lemma check_iface_methods_cons own name method rest :
  ((declared_abstract own name method = true \/
    implemented SearchAttr name method) /\
   check_iface_methods SearchAttr own ((name, method) :: rest)
   = check_iface_methods SearchAttr own rest)
  \/ (~ (declared_abstract own name method = true \/
         implemented SearchAttr name method) /\
      exists e,
        check_iface_methods SearchAttr own ((name, method) :: rest) = Throw e
        /\ (code e = INCOMPATIBLE_TYPE \/ SearchAttr name = Throw e)).
Proof.
  simpl. destruct (declared_abstract own name method) eqn:Hd; [left; auto|].
  destruct (check_methods_cons SearchAttr name method [])
    as [[Hi _]|[Hn (e & He & Hcode)]].
  - left. split; [by right|]. destruct Hi as (fobj & -> & Hk & Hf).
    rewrite bool_decide_eq_false_2 by (by rewrite Hk; intros ?).
    unfold ne_func. by rewrite Hf.
  - right. split; [intros [?|?]; [done|tauto]|]. exists e. split; [|done].
    simpl in He. destruct (SearchAttr name) as [fobj|e']; [|done].
    destruct (bool_decide (type fobj ≠ FUNC)); [done|].
    by destruct (ne_func method (static_cast_FuncObject fobj)).
Qed.

Lemma check_iface_methods_Ok own methods :
  check_iface_methods SearchAttr own methods = Ok tt <->
  (forall name method, (name, method) ∈ methods ->
     declared_abstract own name method = true \/
     implemented SearchAttr name method).
Proof.
  induction methods as [|[name method] rest IH].
  - simpl. split; [|reflexivity]. intros _ n m Hin. inversion Hin.
  - destruct (check_iface_methods_cons own name method rest)
      as [[Hi ->]|[Hn (e & -> & _)]].
    + rewrite IH. split.
      * intros H n m Hin. apply elem_of_cons in Hin as [[=-> ->]|Hin]; auto.
      * intros H n m Hin. apply H. by apply elem_of_cons; right.
    + split; [discriminate|]. intros H. exfalso. apply Hn, H.
      by apply elem_of_cons; left.
Qed.

Lemma check_iface_methods_Throw own methods e :
  check_iface_methods SearchAttr own methods = Throw e ->
  code e = INCOMPATIBLE_TYPE \/ exists name, SearchAttr name = Throw e.
Proof.
  induction methods as [|[name method] rest IH]; [discriminate|].
  destruct (check_iface_methods_cons own name method rest)
    as [[Hi ->]|[Hn (e' & -> & He')]]; [done|].
  intros [= <-]. destruct He' as [?|?]; eauto.
Qed.

Lemma check_ifaces_Ok own ifaces :
  check_ifaces SearchAttr own ifaces = Ok tt <->
  (forall iface, iface ∈ ifaces ->
     type_kind (iface_TypeObject iface) = DECL_IFACE /\
     forall name method, methods_ iface !! name = Some method ->
       declared_abstract own name method = true \/
       implemented SearchAttr name method).
Proof.
  induction ifaces as [|iface rest IH]; simpl.
  - split; [|done]. intros _ i Hin. inversion Hin.
  - case_bool_decide as Hk.
    + split; [discriminate|]. intros H. exfalso.
      destruct (H iface) as [Hkind _]; [by apply elem_of_cons; left|].
      apply Hk. by rewrite Hkind.
    + assert (type_kind (iface_TypeObject iface) = DECL_IFACE) as Hkind
        by (destruct (decide (type_kind (iface_TypeObject iface) = DECL_IFACE));
            tauto).
      destruct (check_iface_methods SearchAttr own
                  (map_to_list (methods_ iface))) as [[]|e] eqn:Hm.
      * pose proof (proj1 (check_iface_methods_Ok _ _) Hm) as Hm'.
        rewrite IH. split.
        -- intros H i [->|Hin]%elem_of_cons; [|by apply H].
           split; [done|]. intros n m Hn. apply Hm'.
           by apply elem_of_map_to_list.
        -- intros H i Hin. apply H. by apply elem_of_cons; right.
      * split; [discriminate|]. intros H. exfalso.
        destruct (H iface) as [_ Hall]; [by apply elem_of_cons; left|].
        assert (check_iface_methods SearchAttr own
                  (map_to_list (methods_ iface)) = Ok tt) as Hok.
        { apply check_iface_methods_Ok. intros n m Hin.
          apply Hall. by apply elem_of_map_to_list. }
        congruence.
Qed.

Lemma check_ifaces_Throw own ifaces e :
  check_ifaces SearchAttr own ifaces = Throw e ->
  code e = INCOMPATIBLE_TYPE \/ exists name, SearchAttr name = Throw e.
Proof.
  induction ifaces as [|iface rest IH]; simpl; [discriminate|].
  case_bool_decide; [intros [= <-]; by left|].
  destruct (check_iface_methods SearchAttr own (map_to_list (methods_ iface)))
    as [[]|e'] eqn:Hm; [done|].
  intros [= <-]. by eapply check_iface_methods_Throw.
Qed.

End InterfaceFacts.

(** X6. [CheckInterfaceCompatibility] succeeds exactly when every entry of
    the interface list is of kind DECL_IFACE and every method of every
    interface is either declared abstract by the class with an equal
    signature or implemented by an attribute of function kind with a
    matching signature; abstract and concrete classes are treated alike.
    When it throws, the code is INCOMPATIBLE_TYPE unless the error is one
    [SearchAttr] threw. *)
Theorem CheckInterfaceCompatibility_spec
  (SearchAttr : string -> Result Object) (c : DeclClassType)
  (ifaces : list DeclInterface) :
  (CheckInterfaceCompatibility SearchAttr c ifaces = Ok tt <->
   forall iface, iface ∈ ifaces ->
     type_kind (iface_TypeObject iface) = DECL_IFACE /\
     forall name method, methods_ iface !! name = Some method ->
       declared_abstract (abstract_methods_ c) name method = true \/
       implemented SearchAttr name method) /\
  (forall e, CheckInterfaceCompatibility SearchAttr c ifaces = Throw e ->
     code e = INCOMPATIBLE_TYPE \/ exists name, SearchAttr name = Throw e).
Proof.
  split; [apply check_ifaces_Ok|]. intros e. apply check_ifaces_Throw.
Qed.

(** ** Declaring an interface *)

Section MergeFacts.

Import AbstractMethods.

Lemma insert_methods_cases (m own : gmap string AbstractMethod) :
  (m ##ₘ own /\ insert_methods (map_to_list m) own = Ok (m ∪ own)) \/
  (~ m ##ₘ own /\
   insert_methods (map_to_list m) own = Throw {| code := INCOMPATIBLE_TYPE |}).
Proof.
  destruct (insert_methods_map m own) as [Hok Hthrow].
  destruct (free_or_held (map_to_list m) own) as [Hfree|(nm & Hin & Hheld)].
  - left. assert (m ##ₘ own) as Hdisj; [|auto].
    apply map_disjoint_spec. intros n x y Hm Ho.
    pose proof (Hfree (n, x) ltac:(by apply elem_of_map_to_list)) as Hn.
    simpl in Hn. congruence.
  - right. assert (~ m ##ₘ own) as Hnot; [|auto].
    intros Hdisj. destruct nm as [n x]. apply elem_of_map_to_list in Hin.
    destruct Hheld as [y Hy]. simpl in Hy.
    by eapply (map_disjoint_spec m own).
Qed.

Lemma distinct_method_names_cons (ifc : DeclInterface)
  (rest : list DeclInterface) :
  distinct_method_names (ifc :: rest) <->
  (forall x, x ∈ rest -> methods_ ifc ##ₘ methods_ x) /\
  distinct_method_names rest.
Proof.
  unfold distinct_method_names. split.
  - intros H. split.
    + intros x (l2 & l3 & ->)%list_elem_of_split. by apply (H [] ifc l2 x l3).
    + intros l1 a l2 b l3 ->. by apply (H (ifc :: l1) a l2 b l3).
  - intros [Hhead Hrest] l1 a l2 b l3 Heq. destruct l1 as [|x l1].
    + injection Heq as <- ->. apply Hhead.
      apply elem_of_app. right. by apply elem_of_cons; left.
    + injection Heq as _ ->. by eapply Hrest.
Qed.

Lemma merge_interfaces_spec (ifaces : list DeclInterface)
  (own : gmap string AbstractMethod) :
  match merge_interfaces ifaces own with
  | Ok r =>
    (forall ifc, ifc ∈ ifaces -> methods_ ifc ##ₘ own) /\
    distinct_method_names ifaces /\
    (forall n m, r !! n = Some m <->
       own !! n = Some m \/
       exists ifc, ifc ∈ ifaces /\ methods_ ifc !! n = Some m)
  | Throw e =>
    code e = INCOMPATIBLE_TYPE /\
    ~ ((forall ifc, ifc ∈ ifaces -> methods_ ifc ##ₘ own) /\
       distinct_method_names ifaces)
  end.
Proof.
  revert own. induction ifaces as [|ifc rest IH]; intros own; simpl.
  - split; [intros ifc Hin; inversion Hin|]. split.
    + intros l1 a l2 b l3 Heq. by destruct l1.
    + intros n m. split; [by left|]. intros [?|(ifc & Hin & _)]; [done|].
      inversion Hin.
  - destruct (insert_methods_cases (methods_ ifc) own)
      as [[Hdisj ->]|[Hnot ->]].
    + specialize (IH (methods_ ifc ∪ own)).
      destruct (merge_interfaces rest (methods_ ifc ∪ own)) as [r|e].
      * destruct IH as (Hown & Hdist & Hlook). split; [|split].
        -- intros x [->|Hin]%elem_of_cons; [done|].
           by apply (map_disjoint_union_r (methods_ x) (methods_ ifc) own), Hown.
        -- apply distinct_method_names_cons. split; [|done].
           intros x Hin. symmetry.
           by apply (map_disjoint_union_r (methods_ x) (methods_ ifc) own), Hown.
        -- intros n m. rewrite Hlook, (lookup_union_Some _ _ _ _ Hdisj). split.
           ++ intros [[?|?]|(x & Hin & Hx)]; [right|by left|right].
              ** exists ifc. split; [by apply elem_of_cons; left|done].
              ** exists x. split; [by apply elem_of_cons; right|done].
           ++ intros [?|(x & [->|Hin]%elem_of_cons & Hx)]; [by left; right|by left; left|].
              right. eauto.
      * destruct IH as [Hcode Hnot]. split; [done|].
        intros [Hown [Hhead Hdist]%distinct_method_names_cons]. apply Hnot.
        split; [|done]. intros x Hin. apply map_disjoint_union_r. split.
        -- symmetry. by apply Hhead.
        -- apply Hown. by apply elem_of_cons; right.
    + split; [done|]. intros [Hown _]. apply Hnot, Hown.
      by apply elem_of_cons; left.
Qed.

Lemma DeclInterface_new_Ok (name : string) (ifaces : list DeclInterface)
  (i : DeclInterface) :
  DeclInterface_new name ifaces = Ok i ->
  iface_TypeObject i = {| type_kind := DECL_IFACE; name_ := name |} /\
  distinct_method_names ifaces /\
  (forall n m, methods_ i !! n = Some m <->
     exists ifc, ifc ∈ ifaces /\ methods_ ifc !! n = Some m).
Proof.
  unfold DeclInterface_new. pose proof (merge_interfaces_spec ifaces ∅) as H.
  destruct (merge_interfaces ifaces ∅) as [r|e]; [|done].
  intros [= <-]. simpl. destruct H as (_ & Hdist & Hlook).
  split; [done|]. split; [done|]. intros n m. rewrite Hlook.
  rewrite lookup_empty. split; [intros [?|?]; done|by right].
Qed.

End MergeFacts.

(** X7. The constructor of an interface merges the methods of the base
    interfaces: it succeeds exactly when no method name is declared by two
    of them, and the interface then has kind DECL_IFACE and holds a method
    exactly when one of the base interfaces declares it. Otherwise it
    throws a RunTimeError of code INCOMPATIBLE_TYPE. *)
Theorem DeclInterface_new_merges (name : string)
  (ifaces : list DeclInterface) :
  match DeclInterface_new name ifaces with
  | Ok i =>
    iface_TypeObject i = {| type_kind := DECL_IFACE; name_ := name |} /\
    distinct_method_names ifaces /\
    (forall n m, methods_ i !! n = Some m <->
       exists ifc, ifc ∈ ifaces /\ methods_ ifc !! n = Some m)
  | Throw e => code e = INCOMPATIBLE_TYPE /\ ~ distinct_method_names ifaces
  end.
Proof.
  destruct (DeclInterface_new name ifaces) as [i|e] eqn:Hnew.
  - by apply DeclInterface_new_Ok.
  - unfold DeclInterface_new in Hnew.
    pose proof (merge_interfaces_spec ifaces ∅) as H.
    destruct (merge_interfaces ifaces ∅) as [r|e']; [done|].
    injection Hnew as <-. destruct H as [Hcode Hnot]. split; [done|].
    intros Hdist. apply Hnot. split; [|done].
    intros ifc _. apply map_disjoint_empty_r.
Qed.

(** X8. An interface fresh from its constructor accepts a new method
    exactly when no base interface declares the name: the method is then
    held beside the inherited ones, which stay as they were. A name a base
    interface declares is refused with INCOMPATIBLE_TYPE. *)
Theorem AddMethod_after_new (name : string) (ifaces : list DeclInterface)
  (i : DeclInterface) (n : string) (m : AbstractMethods.AbstractMethod)
  (Hnew : DeclInterface_new name ifaces = Ok i) :
  match AddMethod n m i with
  | Ok i' =>
    (forall ifc, ifc ∈ ifaces -> methods_ ifc !! n = None) /\
    methods_ i' !! n = Some m /\
    (forall n' m', n' <> n ->
       (methods_ i' !! n' = Some m' <->
        exists ifc, ifc ∈ ifaces /\ methods_ ifc !! n' = Some m'))
  | Throw e =>
    code e = INCOMPATIBLE_TYPE /\
    exists ifc m', ifc ∈ ifaces /\ methods_ ifc !! n = Some m'
  end.
Proof.
  apply DeclInterface_new_Ok in Hnew as (_ & _ & Hlook).
  unfold AddMethod. destruct (methods_ i !! n) as [m'|] eqn:Hn.
  - split; [done|]. apply Hlook in Hn as (ifc & Hin & Hm). eauto.
  - simpl. split; [|split].
    + intros ifc Hin. destruct (methods_ ifc !! n) as [m'|] eqn:Hm; [|done].
      assert (methods_ i !! n = Some m') as Hi by (apply Hlook; eauto).
      congruence.
    + apply lookup_insert_eq.
    + intros n' m' Hne. rewrite lookup_insert_ne by done. apply Hlook.
Qed.

(** ** The built-in types *)

(** X9. Two built-in type objects are equal exactly when they are the same
    built-in type: the names the constructors fix are pairwise distinct.
    Equality does not tell a built-in type from a declared class of the
    same name. *)
Theorem builtin_types_equal_iff_same (b1 b2 : BuiltinType) :
  (TypeObject_eq (builtin_TypeObject b1) (Type_ (builtin_TypeObject b2)) = true
   <-> b1 = b2) /\
  TypeObject_eq (builtin_TypeObject b1)
    (Type_ (declared_TypeObject (builtin_name b1))) = true.
Proof.
  split.
  - destruct b1, b2; vm_compute; split; congruence.
  - by destruct b1.
Qed.

(** ** Dispatch to the methods of the class *)

(** X10. [Caller] looks the name up in the symbol-table stack of the class
    of the instance and nowhere else. Bound to a function, the name makes it
    call exactly that function, once, with the instance prepended to the
    arguments, and hand back what the function returns or throws. Bound to
    an object of any other kind it throws INCOMPATIBLE_TYPE, and unresolved
    it passes on the error of the lookup; in both cases nothing is called
    and no object of the store changes. *)
Theorem Caller_calls_the_bound_function
  (unresolved : string -> RunTimeError)
  (body : FuncObject -> list positive -> gmap string positive ->
          gmap positive Object -> Result positive * gmap positive Object)
  (c : DeclClassType) (self : positive) (fname : string)
  (params : list positive) (kw_params : gmap string positive) (s : State) :
  match Lookup (symbol_table_stack c) fname with
  | None =>
    Caller unresolved body c self fname params kw_params s
    = (Throw (unresolved fname), s)
  | Some e =>
    let o := deref (heap s) (object e) in
    if bool_decide (type o = FUNC) then
      let f := static_cast_FuncObject o in
      let run := body f (self :: params) kw_params (heap s) in
      Caller unresolved body c self fname params kw_params s
      = (fst run,
         {| heap := snd run;
            calls := calls s ++ [(f, self :: params, kw_params)] |})
    else
      exists s',
        Caller unresolved body c self fname params kw_params s
        = (Throw {| code := INCOMPATIBLE_TYPE |}, s') /\
        calls s' = calls s /\
        forall p x, heap s !! p = Some x -> heap s' !! p = Some x
  end.
Proof.
  unfold Caller.
  destruct (Lookup (symbol_table_stack c) fname) as [e|]; [|reflexivity].
  cbv zeta. rewrite bind_run, SharedAccess_run.
  case_bool_decide as Hf.
  - assert (is_scalar (type (deref (heap s) (object e))) = false) as ->
      by (by rewrite Hf).
    rewrite bind_run. unfold load at 1.
    rewrite (bool_decide_eq_false_2 (type (deref (heap s) (object e)) ≠ FUNC))
      by tauto.
    unfold Call. by destruct (body _ _ _ _).
  - destruct (is_scalar (type (deref (heap s) (object e)))) eqn:Hk.
    + rewrite bind_run. unfold load at 1. simpl.
      rewrite (deref_Some _ _ (deref (heap s) (object e)))
        by apply lookup_insert_eq.
      rewrite (bool_decide_eq_true_2 _ Hf).
      eexists. split; [reflexivity|]. split; [reflexivity|]. simpl.
      intros p x Hp. rewrite lookup_insert_ne; [done|].
      by apply fresh_ne with (o := x).
    + rewrite bind_run. unfold load at 1.
      rewrite (bool_decide_eq_true_2 _ Hf).
      eexists. split; [reflexivity|]. by split.
Qed.

(** ** The status of the processes *)

Section StatusFacts.

Import CmdExec.
Open Scope Z_scope.
Open Scope list_scope.

Lemma mark_first_same_or_marked (pid status : Z) (ps ps' : list Process) :
  mark_first pid status ps = Some ps' ->
  Forall2 (same_or_marked pid status) ps ps'.
Proof.
  revert ps'. induction ps as [|p ps IH]; simpl; [discriminate|].
  intros ps'. destruct (Z.eqb_spec (pid_ p) pid) as [Heq|Hne].
  - intros [= <-]. constructor; [by right|].
    apply Forall2_same_length_lookup_2; [done|]. intros i x y Hx Hy.
    left. congruence.
  - destruct (mark_first pid status ps) as [ps1|]; [|discriminate].
    intros [= <-]. constructor; [by left|by apply IH].
Qed.

Lemma mark_first_Some_elem (pid status : Z) (ps ps' : list Process) :
  mark_first pid status ps = Some ps' ->
  exists p, p ∈ ps /\ pid_ p = pid.
Proof.
  revert ps'. induction ps as [|p ps IH]; simpl; [discriminate|].
  intros ps'. destruct (Z.eqb_spec (pid_ p) pid) as [Heq|Hne].
  - intros _. exists p. split; [by apply elem_of_cons; left|done].
  - destruct (mark_first pid status ps) as [ps1|]; [|discriminate].
    intros _. destruct (IH ps1 eq_refl) as (q & Hq & Hpid).
    exists q. split; [by apply elem_of_cons; right|done].
Qed.

Lemma Forall2_same {A} (R : A -> A -> Prop) (l : list A) :
  (forall x, R x x) -> Forall2 R l l.
Proof. intros H. induction l; by constructor. Qed.

Lemma same_or_marked_flags_kept (pid status : Z) (p p' : Process) :
  same_or_marked pid status p p' -> flags_kept p p'.
Proof.
  intros [->|[_ ->]]; [by repeat split|].
  unfold mark. by destruct (WIFSTOPPED status); repeat split.
Qed.

Lemma flags_kept_trans (p1 p2 p3 : Process) :
  flags_kept p1 p2 -> flags_kept p2 p3 -> flags_kept p1 p3.
Proof.
  intros (Hp & Ha & Hc & Hs) (Hp' & Ha' & Hc' & Hs').
  repeat split; [congruence|congruence|auto..].
Qed.

Lemma Forall2_flags_kept_trans (l1 l2 l3 : list Process) :
  Forall2 flags_kept l1 l2 -> Forall2 flags_kept l2 l3 ->
  Forall2 flags_kept l1 l3.
Proof.
  intros H12. revert l3. induction H12 as [|p1 p2 l1 l2 Hp H12 IH];
    intros l3 H23; inversion H23; subst; constructor.
  - by eapply flags_kept_trans.
  - by apply IH.
Qed.

Lemma MarkProcessStatus_effect (err pid status : Z) (j : Job) :
  let r := fst (MarkProcessStatus err pid status j) in
  let j' := snd (MarkProcessStatus err pid status j) in
  Forall2 (same_or_marked pid status) (process_ j) (process_ j') /\
  j' = set_process (process_ j') j /\
  (r = 0 \/ (r = -1 /\ j' = j)) /\
  (r = 0 <-> 0 < pid /\ exists p, p ∈ process_ j /\ pid_ p = pid).
Proof.
  cbv zeta.
  destruct (MarkProcessStatus_result err pid status j)
    as [(ps & Hpos & Hm & ->)|[Hnone ->]]; simpl.
  - split; [by apply mark_first_same_or_marked|]. split; [done|].
    split; [by left|]. split; [|done]. intros _. split; [done|].
    by eapply mark_first_Some_elem.
  - split; [apply Forall2_same; by left|]. split; [by destruct j|].
    split; [by right|]. split; [done|].
    intros [Hpos (p & Hp & Hpid)]. destruct Hnone as [?|Hnone]; [lia|].
    by destruct (Hnone p Hp).
Qed.

Lemma processes_stopped_kept (ps ps' : list Process) :
  Forall2 flags_kept ps ps' ->
  processes_stopped ps = 1 -> processes_stopped ps' = 1.
Proof.
  rewrite !processes_stopped_1. intros H Hall p' Hp'.
  apply list_elem_of_lookup in Hp' as [i Hi].
  destruct (Forall2_lookup_r _ _ _ _ _ H Hi) as (p & Hp & (_ & _ & Hc & Hs)).
  destruct (Hall p) as [?|?]; [by eapply list_elem_of_lookup_2|auto..].
Qed.

Lemma processes_completed_kept (ps ps' : list Process) :
  Forall2 flags_kept ps ps' ->
  processes_completed ps = 1 -> processes_completed ps' = 1.
Proof.
  rewrite !processes_completed_1. intros H Hall p' Hp'.
  apply list_elem_of_lookup in Hp' as [i Hi].
  destruct (Forall2_lookup_r _ _ _ _ _ H Hi) as (p & Hp & (_ & _ & Hc & Hs)).
  apply Hc, Hall. by eapply list_elem_of_lookup_2.
Qed.

End StatusFacts.

(** X11. [MarkProcessStatus] changes at most the processes of the job and,
    among them, only processes whose pid is the pid reported: every process
    is left as it was or is a process of that pid with the status recorded.
    It returns 0 exactly when the pid is positive and some process of the
    job has it, and -1, with the job untouched, otherwise. *)
Theorem MarkProcessStatus_marks_matching_process
  (err pid status : Z) (j : CmdExec.Job) :
  let r := fst (CmdExec.MarkProcessStatus err pid status j) in
  let j' := snd (CmdExec.MarkProcessStatus err pid status j) in
  Forall2 (CmdExec.same_or_marked pid status)
    (CmdExec.process_ j) (CmdExec.process_ j') /\
  j' = CmdExec.set_process (CmdExec.process_ j') j /\
  (r = 0 \/ (r = -1 /\ j' = j))%Z /\
  (r = 0%Z <->
   (0 < pid)%Z /\ exists p, p ∈ CmdExec.process_ j /\ CmdExec.pid_ p = pid).
Proof. apply MarkProcessStatus_effect. Qed.

Section WaitMoreFacts.

Import CmdExec.
Open Scope Z_scope.
Open Scope list_scope.

Lemma lor_absorb (a s c : Z) : Z.lor c (Z.lor a s) = c -> Z.lor c a = c.
Proof.
  intros H. apply Z.bits_inj'. intros n _.
  apply (f_equal (fun x => Z.testbit x n)) in H. rewrite !Z.lor_spec in *.
  by destruct (Z.testbit c n), (Z.testbit a n), (Z.testbit s n).
Qed.

(** What one turn of the loop of [WaitForJob] keeps of the job. *)
Lemma wait_turn_keeps (err pid status : Z) (j : Job) :
  let j2 := snd (MarkProcessStatus err pid status
                   (set_job_status (Z.lor (job_status_ j) status) j)) in
  Forall2 flags_kept (process_ j) (process_ j2) /\
  job_status_ j2 = Z.lor (job_status_ j) status /\
  pgid_ j2 = pgid_ j /\ stdin_ j2 = stdin_ j /\ stdout_ j2 = stdout_ j /\
  stderr_ j2 = stderr_ j /\ shell_tmodes_ j2 = shell_tmodes_ j.
Proof.
  cbv zeta.
  destruct (MarkProcessStatus_effect err pid status
              (set_job_status (Z.lor (job_status_ j) status) j))
    as (Hps & -> & _). simpl. split; [|done].
  eapply Forall2_impl; [exact Hps|]. apply same_or_marked_flags_kept.
Qed.

Lemma wait_loop_keeps (n : nat) (j j' : Job) (w w' : World) :
  wait_loop n j w = Returned j' w' ->
  Forall2 flags_kept (process_ j) (process_ j') /\
  Z.lor (job_status_ j') (job_status_ j) = job_status_ j' /\
  pgid_ j' = pgid_ j /\ stdin_ j' = stdin_ j /\ stdout_ j' = stdout_ j /\
  stderr_ j' = stderr_ j /\ shell_tmodes_ j' = shell_tmodes_ j.
Proof.
  revert j w. induction n as [|n IH]; intros j w; [discriminate|].
  simpl. unfold mbind, OS_bind.
  pose proof (wait_step_run j w) as Hs.
  destruct (waits w) as [|[[pid status] err] rest] eqn:Hw.
  - by rewrite Hs.
  - destruct Hs as (w1 & -> & _). cbv zeta.
    destruct (wait_turn_keeps err pid status j)
      as (Hps & Hst & Hg & Hi & Ho & He & Hm).
    set (j2 := snd (MarkProcessStatus err pid status
                      (set_job_status (Z.lor (job_status_ j) status) j))) in *.
    match goal with |- context [if ?b then _ else _] => destruct b end.
    + intros Hloop. destruct (IH _ _ Hloop)
        as (Hps' & Hst' & Hg' & Hi' & Ho' & He' & Hm').
      split; [by eapply Forall2_flags_kept_trans|].
      split; [|repeat split; congruence].
      rewrite Hst in Hst'. by eapply lor_absorb.
    + intros [= <- <-]. split; [done|]. split; [|done].
      rewrite Hst, (Z.lor_comm (Z.lor _ _)), Z.lor_assoc. by rewrite Z.lor_diag.
Qed.

(** On a job whose processes are all stopped or completed the loop takes
    one answer and ends. *)
Lemma WaitForJob_once (j : Job) (w : World) (pid status err : Z)
  (rest : list (Z * Z * Z)) :
  JobIsStopped j = 1 ->
  waits w = (pid, status, err) :: rest ->
  exists w',
    WaitForJob j w
    = Returned (snd (MarkProcessStatus err pid status
                       (set_job_status (Z.lor (job_status_ j) status) j))) w'
    /\ waits w' = rest
    /\ trace w' = trace w ++ [sys_waitpid WAIT_ANY WUNTRACED].
Proof.
  intros Hstopped Hw. unfold WaitForJob. simpl. unfold mbind, OS_bind.
  pose proof (wait_step_run j w) as Hs. rewrite Hw in Hs.
  destruct Hs as (w' & -> & Hrest & Htrace). cbv zeta.
  destruct (wait_turn_keeps err pid status j) as (Hps & _).
  set (j2 := snd (MarkProcessStatus err pid status
                    (set_job_status (Z.lor (job_status_ j) status) j))) in *.
  assert (JobIsStopped j2 = 1) as ->
    by (by eapply processes_stopped_kept).
  rewrite andb_false_r. simpl. eauto.
Qed.

Lemma Status_fold (ps : list Process) (acc : Z) :
  fold_left (fun status p => Z.lor status (status_ p)) ps acc
  = Z.lor acc (fold_left (fun status p => Z.lor status (status_ p)) ps 0).
Proof.
  revert acc. induction ps as [|p ps IH]; intros acc; simpl.
  - by rewrite Z.lor_0_r.
  - rewrite (IH (Z.lor acc _)), (IH (Z.lor 0 _)).
    by rewrite Z.lor_0_l, Z.lor_assoc.
Qed.

Lemma Status_cons (p : Process) (ps : list Process) (j : Job) :
  Status (set_process (p :: ps) j)
  = Z.lor (status_ p) (Status (set_process ps j)).
Proof. unfold Status. simpl. apply Status_fold. Qed.

End WaitMoreFacts.

(** X12. [WaitForJob] never unmarks a process: when it returns, every
    process has the pid and the arguments it had, and each flag that was
    set is still set, so a job that reported itself stopped or completed
    still does. The bits of [status_] of the job are only added to, and the
    process group, the descriptors and the saved terminal modes of the job
    are left alone. *)
Theorem WaitForJob_never_unmarks (j j' : CmdExec.Job) (w w' : CmdExec.World)
  (Hreturned : CmdExec.WaitForJob j w = CmdExec.Returned j' w') :
  Forall2 CmdExec.flags_kept (CmdExec.process_ j) (CmdExec.process_ j') /\
  (CmdExec.JobIsStopped j = 1%Z -> CmdExec.JobIsStopped j' = 1%Z) /\
  (CmdExec.JobIsCompleted j = 1%Z -> CmdExec.JobIsCompleted j' = 1%Z) /\
  Z.lor (CmdExec.job_status_ j') (CmdExec.job_status_ j)
  = CmdExec.job_status_ j' /\
  CmdExec.pgid_ j' = CmdExec.pgid_ j /\
  CmdExec.stdin_ j' = CmdExec.stdin_ j /\
  CmdExec.stdout_ j' = CmdExec.stdout_ j /\
  CmdExec.stderr_ j' = CmdExec.stderr_ j /\
  CmdExec.shell_tmodes_ j' = CmdExec.shell_tmodes_ j.
Proof.
  destruct (wait_loop_keeps _ _ _ _ _ Hreturned) as (Hps & Hrest).
  split; [done|]. split; [by apply processes_stopped_kept|].
  split; [by apply processes_completed_kept|done].
Qed.

(** X13. The loop of [WaitForJob] is a do-while: also on a job whose
    processes are all stopped or completed already (a job without processes
    included) it calls [waitpid(WAIT_ANY, ..., WUNTRACED)], exactly once,
    and takes whatever child the system reports; without an answer it does
    not return. *)
Theorem WaitForJob_waits_once_on_finished_job
  (j : CmdExec.Job) (w : CmdExec.World)
  (Hfinished : CmdExec.JobIsStopped j = 1%Z) :
  match CmdExec.waits w with
  | [] => CmdExec.WaitForJob j w = CmdExec.NoAnswer
  | (pid, status, err) :: rest =>
    exists j' w',
      CmdExec.WaitForJob j w = CmdExec.Returned j' w' /\
      CmdExec.waits w' = rest /\
      CmdExec.trace w'
      = (CmdExec.trace w
         ++ [CmdExec.sys_waitpid CmdExec.WAIT_ANY CmdExec.WUNTRACED])%list /\
      CmdExec.job_status_ j' = Z.lor (CmdExec.job_status_ j) status /\
      CmdExec.JobIsStopped j' = 1%Z
  end.
Proof.
  destruct (CmdExec.waits w) as [|[[pid status] err] rest] eqn:Hw.
  - unfold CmdExec.WaitForJob. rewrite Hw. simpl.
    unfold mbind, CmdExec.OS_bind.
    pose proof (wait_step_run j w) as Hs. rewrite Hw in Hs. by rewrite Hs.
  - destruct (WaitForJob_once j w pid status err rest Hfinished Hw)
      as (w' & Hrun & Hrest & Htrace).
    destruct (wait_turn_keeps err pid status j) as (Hps & Hst & _).
    eexists _, w'. split; [exact Hrun|]. repeat split; try done.
    by eapply processes_stopped_kept.
Qed.

(** X14. [Status()] is the bitwise or of the statuses of the processes: a
    bit is set in it exactly when it is set in the status of some process,
    and it is 0 exactly when every process has status 0. *)
Theorem Status_is_the_or_of_the_statuses (j : CmdExec.Job) :
  (forall n, Z.testbit (CmdExec.Status j) n = true <->
     exists p, p ∈ CmdExec.process_ j /\
               Z.testbit (CmdExec.status_ p) n = true) /\
  (CmdExec.Status j = 0%Z <->
   forall p, p ∈ CmdExec.process_ j -> CmdExec.status_ p = 0%Z).
Proof.
  unfold CmdExec.Status. induction (CmdExec.process_ j) as [|p ps [IHb IH0]].
  - simpl. split.
    + intros n. rewrite Z.bits_0. split; [done|]. intros (p & Hp & _).
      inversion Hp.
    + split; [|done]. intros _ p Hp. inversion Hp.
  - simpl. rewrite Status_fold. split.
    + intros n. rewrite Z.lor_spec, orb_true_iff, IHb. rewrite Z.lor_0_l.
      split.
      * intros [Hp|(q & Hq & Hn)].
        -- exists p. split; [by apply elem_of_cons; left|done].
        -- exists q. split; [by apply elem_of_cons; right|done].
      * intros (q & [->|Hq]%elem_of_cons & Hn); [by left|right; eauto].
    + rewrite Z.lor_eq_0_iff, IH0, Z.lor_0_l. split.
      * intros [Hp Hall] q [->|Hq]%elem_of_cons; auto.
      * intros Hall. split; [apply Hall; by apply elem_of_cons; left|].
        intros q Hq. apply Hall. by apply elem_of_cons; right.
Qed.

(** ** The loop of the launch *)

Section LoopFacts.

Import CmdExec.
Open Scope Z_scope.
Open Scope list_scope.

Variable env : EnvShell.
Variable LookupCmd : string -> option CmdEntryType.
Variable CmdDeclExec : list string -> OS unit.
Variable exec_found : string -> bool.

Lemma bind_Returned {A B} (m : OS A) (k : A -> OS B) (w w' : World) (b : B) :
  (m ≫= k) w = Returned b w' ->
  exists a w1, m w = Returned a w1 /\ k a w1 = Returned b w'.
Proof.
  unfold mbind, OS_bind. destruct (m w) as [a w1| | | |]; try discriminate.
  eauto.
Qed.

Lemma keeps_ret {A F} (c : World -> F) (a : A) : keeps c (mret a : OS A).
Proof. by intros w a' w' [= _ <-]. Qed.

Lemma keeps_bind {A B F} (c : World -> F) (m : OS A) (k : A -> OS B) :
  keeps c m -> (forall a, keeps c (k a)) -> keeps c (m ≫= k).
Proof.
  intros Hm Hk w b w' (a & w1 & H1 & H2)%bind_Returned.
  rewrite (Hk _ _ _ _ H2). by eapply Hm.
Qed.

Lemma keeps_never {A F} (c : World -> F) (m : OS A) :
  never_returns m -> keeps c m.
Proof. intros H w a w' Hm. by destruct (H w a w'). Qed.

Lemma keeps_when {F} (c : World -> F) (b : bool) (m : OS unit) :
  keeps c m -> keeps c (when b m).
Proof. intros H. destruct b; [done|apply keeps_ret]. Qed.

Lemma keeps_forks_call (s : Syscall) : keeps forks (call s).
Proof. by intros w a w' [= _ <-]. Qed.

Lemma keeps_forks_pipe : keeps forks pipe.
Proof.
  intros w a w'. unfold pipe. destruct (pipes w); [done|]. by intros [= _ <-].
Qed.

(** The first stage of a turn: the pipe, when the process is not the last. *)
Lemma pipe_stage_keeps {F} (c : World -> F) (b : bool) (j : Job)
  (mypipe : Z * Z) :
  keeps c pipe -> (forall s, keeps c (call s)) ->
  keeps c
    (if b then
       '(r, rd, wr) ← pipe;
       if r <? 0 then _ ← call (sys_perror "pipe"); exit 1
       else mret (wr, (rd, wr))
     else mret (stdout_ j, mypipe)).
Proof.
  intros Hpipe Hcall. destruct b; [|apply keeps_ret].
  apply keeps_bind; [done|]. intros [[r rd] wr].
  destruct (r <? 0); [|apply keeps_ret].
  apply keeps_never. intros w a w'. unfold mbind, OS_bind, call, exit. done.
Qed.

Lemma launch_turn (foreground : Z) (n i : nat) (infile : Z)
  (mypipe : Z * Z) (j j' : Job) (w w' : World) :
  (i < length (process_ j))%nat ->
  launch_loop env LookupCmd CmdDeclExec exec_found foreground (S n) i infile
    mypipe j w = Returned j' w' ->
  exists pid infile' mypipe' w1,
    0 < pid /\ forks w = pid :: forks w1 /\ waits w1 = waits w /\
    launch_loop env LookupCmd CmdDeclExec exec_found foreground n (S i)
      infile' mypipe' (parent_stage env i pid j) w1 = Returned j' w'.
Proof.
  intros Hi. simpl. intros ([outfile mypipe'] & w1 & Hpipe & H)%bind_Returned.
  assert (forks w1 = forks w /\ waits w1 = waits w) as [Hf1 Hw1].
  { split.
    - eapply (pipe_stage_keeps forks); [apply keeps_forks_pipe
                                       |apply keeps_forks_call|exact Hpipe].
    - eapply (pipe_stage_keeps waits); [apply keeps_waits_pipe
                                       |apply keeps_waits_call|exact Hpipe]. }
  apply bind_Returned in H as (pid & w2 & Hfork & H).
  assert (forks w1 = pid :: forks w2 /\ waits w2 = waits w1) as [Hf2 Hw2].
  { unfold fork in Hfork. destruct (forks w1) as [|pid' rest]; [done|].
    by injection Hfork as -> <-. }
  apply bind_Returned in H as (j1 & w3 & Hstage & H).
  assert (0 < pid /\ j1 = parent_stage env i pid j /\
          forks w3 = forks w2 /\ waits w3 = waits w2)
    as (Hpos & -> & Hf3 & Hw3).
  { destruct (Z.eqb_spec pid 0) as [->|Hne].
    - exfalso. destruct (lookup_lt_is_Some_2 _ _ Hi) as [p Hp].
      rewrite Hp in Hstage.
      apply bind_Returned in Hstage as (u & w4 & Hchild & _).
      by eapply LaunchProcess_never_returns.
    - destruct (Z.ltb_spec pid 0) as [Hneg|Hpos].
      + by apply bind_Returned in Hstage as (u & w4 & _ & Hexit).
      + split; [lia|]. unfold parent_stage. cbv zeta in Hstage.
        destruct (shell_is_interactive env).
        * apply bind_Returned in Hstage as (u & w4 & [= _ <-] & [= <- <-]).
          done.
        * by injection Hstage as <- <-. }
  apply bind_Returned in H as (u1 & w4 & Hc1 & H).
  apply bind_Returned in H as (u2 & w5 & Hc2 & H).
  exists pid, (fst mypipe'), mypipe', w5. split; [done|].
  assert (forks w5 = forks w2 /\ waits w5 = waits w) as [Hf5 Hw5].
  { split.
    - rewrite (keeps_when forks _ _ (keeps_forks_call _) _ _ _ Hc2).
      rewrite (keeps_when forks _ _ (keeps_forks_call _) _ _ _ Hc1). done.
    - rewrite (keeps_waits_when _ _ (keeps_waits_call _) _ _ _ Hc2).
      rewrite (keeps_waits_when _ _ (keeps_waits_call _) _ _ _ Hc1).
      congruence. }
  split; [congruence|]. split; [done|]. exact H.
Qed.

Lemma zip_set_pid_step (pid : Z) (pids : list Z) (ps : list Process)
  (i : nat) :
  (i < length ps)%nat ->
  take (S i) (alter (set_pid pid) i ps)
    ++ zip_with set_pid pids (drop (S i) (alter (set_pid pid) i ps))
  = take i ps ++ zip_with set_pid (pid :: pids) (drop i ps).
Proof.
  revert i. induction ps as [|p ps IH]; intros i Hi; simpl in Hi; [lia|].
  destruct i as [|i]; simpl; [done|].
  f_equal. apply IH. lia.
Qed.

Lemma parent_stage_fields (i : nat) (pid : Z) (j : Job) :
  process_ (parent_stage env i pid j) = alter (set_pid pid) i (process_ j) /\
  pgid_ (parent_stage env i pid j)
  = (if shell_is_interactive env && (pgid_ j =? 0) then pid else pgid_ j) /\
  job_status_ (parent_stage env i pid j) = job_status_ j /\
  stdin_ (parent_stage env i pid j) = stdin_ j /\
  stdout_ (parent_stage env i pid j) = stdout_ j /\
  stderr_ (parent_stage env i pid j) = stderr_ j /\
  shell_tmodes_ (parent_stage env i pid j) = shell_tmodes_ j.
Proof.
  unfold parent_stage. destruct (shell_is_interactive env); simpl; [|done].
  by destruct (pgid_ j =? 0).
Qed.

(** What the loop leaves when it returns: the pids [fork] answered, in the
    order of the processes, and a process group. *)
Lemma launch_loop_returned (foreground : Z) (n i : nat) (infile : Z)
  (mypipe : Z * Z) (j j' : Job) (w w' : World) :
  (i + n)%nat = length (process_ j) ->
  launch_loop env LookupCmd CmdDeclExec exec_found foreground n i infile
    mypipe j w = Returned j' w' ->
  exists pids,
    length pids = n /\ forks w = pids ++ forks w' /\
    Forall (fun pid => 0 < pid) pids /\ waits w' = waits w /\
    process_ j'
    = take i (process_ j) ++ zip_with set_pid pids (drop i (process_ j)) /\
    pgid_ j' = (if shell_is_interactive env && (pgid_ j =? 0)
                then hd 0 pids else pgid_ j) /\
    job_status_ j' = job_status_ j /\ stdin_ j' = stdin_ j /\
    stdout_ j' = stdout_ j /\ stderr_ j' = stderr_ j /\
    shell_tmodes_ j' = shell_tmodes_ j.
Proof.
  revert i infile mypipe j w. induction n as [|n IH];
    intros i infile mypipe j w Hlen.
  - intros [= <- <-]. exists []. simpl. rewrite app_nil_r.
    rewrite take_ge by lia. repeat split; try done.
    destruct (shell_is_interactive env); simpl; [|done].
    by destruct (Z.eqb_spec (pgid_ j) 0).
  - intros (pid & infile' & mypipe' & w1 & Hpos & Hforks & Hwaits & Hloop)
      %launch_turn; [|lia].
    destruct (parent_stage_fields i pid j)
      as (Hps1 & Hg1 & Hs1 & Hi1 & Ho1 & He1 & Hm1).
    apply IH in Hloop as (pids & Hn & Hf & Hall & Hw & Hps & Hg & Hrest);
      [|rewrite Hps1, length_alter; lia].
    exists (pid :: pids). split; [simpl; lia|].
    split; [by rewrite Hforks, Hf|]. split; [by constructor|].
    split; [congruence|]. split; [|split].
    + rewrite Hps, Hps1. apply zip_set_pid_step. lia.
    + rewrite Hg, Hg1. simpl.
      destruct (shell_is_interactive env); simpl; [|done].
      destruct (Z.eqb_spec (pgid_ j) 0) as [H0|H0].
      * by destruct (Z.eqb_spec pid 0); [lia|].
      * by destruct (Z.eqb_spec (pgid_ j) 0).
    + rewrite Hs1, Hi1, Ho1, He1, Hm1 in Hrest. exact Hrest.
Qed.

End LoopFacts.

Section LaunchJobFacts.

Import CmdExec.
Open Scope Z_scope.
Open Scope list_scope.

Variable env : EnvShell.
Variable LookupCmd : string -> option CmdEntryType.
Variable CmdDeclExec : list string -> OS unit.
Variable exec_found : string -> bool.

(** How [PutJobInForeground] runs when it returns. *)
Lemma PutJobInForeground_Returned (cont : Z) (j j' : Job) (w w' : World) :
  PutJobInForeground env cont j w = Returned j' w' ->
  exists mid w1 j2 w2,
    trace w1 = trace w ++ sys_tcsetpgrp (shell_terminal env) (pgid_ j) :: mid /\
    waits w1 = waits w /\
    (if cont =? 0 then mid = []
     else exists tail,
       mid = sys_tcsetattr (shell_terminal env) TCSADRAIN (shell_tmodes_ j)
             :: sys_kill (- pgid_ j) SIGCONT :: tail /\
       (tail = [] \/ tail = [sys_perror "kill (SIGCONT)"])) /\
    WaitForJob j w1 = Returned j2 w2 /\
    j' = set_shell_tmodes (terminal_modes w2) j2 /\
    waits w' = waits w2 /\
    terminal_modes w' = shell_tmodes env /\
    trace w'
    = trace w2 ++ [sys_tcsetpgrp (shell_terminal env) (shell_pgid env);
                   sys_tcgetattr (shell_terminal env);
                   sys_tcsetattr (shell_terminal env) TCSADRAIN
                     (shell_tmodes env)].
Proof.
  unfold PutJobInForeground.
  intros (u0 & w0 & [= _ <-] & H)%bind_Returned.
  apply bind_Returned in H as (u1 & w1 & Hcont & H).
  apply bind_Returned in H as (j2 & w2 & Hwait & H).
  apply bind_Returned in H as (u3 & w3 & [= _ <-] & H).
  apply bind_Returned in H as (m & w4 & [= <- <-] & H).
  apply bind_Returned in H as (u5 & w5 & [= _ <-] & [= <- <-]).
  assert (exists mid,
            trace w1
            = trace w ++ sys_tcsetpgrp (shell_terminal env) (pgid_ j) :: mid /\
            waits w1 = waits w /\
            (if cont =? 0 then mid = []
             else exists tail,
               mid = sys_tcsetattr (shell_terminal env) TCSADRAIN
                       (shell_tmodes_ j)
                     :: sys_kill (- pgid_ j) SIGCONT :: tail /\
               (tail = [] \/ tail = [sys_perror "kill (SIGCONT)"])))
    as (mid & Htr & Hw & Hmid).
  { destruct (cont =? 0); simpl in Hcont.
    - injection Hcont as _ <-. by exists [].
    - apply bind_Returned in Hcont as (u6 & w6 & [= _ <-] & Hcont).
      apply bind_Returned in Hcont as (r & w7 & Hkill & Hperror).
      unfold kill in Hkill. simpl in Hkill.
      destruct (kills w) as [|r' rest]; [done|]. injection Hkill as -> <-.
      destruct (r <? 0); simpl in Hperror; injection Hperror as _ <-;
        simpl; rewrite <- !app_assoc; simpl;
        (eexists; split; [reflexivity|]; split; [done|];
         eexists; split; [reflexivity|]; auto). }
  exists mid, w1, j2, w2. simpl. repeat split; try done.
  by rewrite <- !app_assoc.
Qed.

(** How [LaunchJob] runs when it returns: the loop, then nothing more in
    the background of an interactive shell, and [WaitForJob] otherwise. *)
Lemma LaunchJob_Returned (mypipe : Z * Z) (foreground : Z) (j j' : Job)
  (w w' : World) :
  LaunchJob env LookupCmd CmdDeclExec exec_found mypipe foreground j w
  = Returned j' w' ->
  exists j1 w1,
    launch_loop env LookupCmd CmdDeclExec exec_found foreground
      (length (process_ j)) 0 (stdin_ j) mypipe j w = Returned j1 w1 /\
    ((shell_is_interactive env = true /\ foreground = 0 /\
      j' = j1 /\ w' = w1) \/
     ((shell_is_interactive env = false \/ foreground <> 0) /\
      exists w1' j2 w2,
        waits w1' = waits w1 /\ WaitForJob j1 w1' = Returned j2 w2 /\
        process_ j' = process_ j2 /\ pgid_ j' = pgid_ j2 /\
        job_status_ j' = job_status_ j2 /\ waits w' = waits w2)).
Proof.
  unfold LaunchJob. intros (j1 & w1 & Hloop & H)%bind_Returned.
  exists j1, w1. split; [done|].
  destruct (shell_is_interactive env); simpl in H.
  - destruct (Z.eqb_spec foreground 0) as [->|Hfg]; simpl in H.
    + left. unfold PutJobInBackground in H. simpl in H.
      by injection H as <- <-.
    + right. split; [by right|].
      apply PutJobInForeground_Returned in H
        as (mid & w1' & j2 & w2 & _ & Hw & _ & Hwait & -> & Hw' & _).
      by exists w1', j2, w2.
  - right. split; [by left|]. by exists w1, j', w'.
Qed.

Lemma keeps_forks_kill (pid sig : Z) : keeps forks (kill pid sig).
Proof.
  intros w a w'. unfold kill. destruct (kills w); [done|]. by intros [= _ <-].
Qed.

Lemma keeps_forks_tcgetattr (fd : Z) : keeps forks (tcgetattr fd).
Proof. by intros w a w' [= _ <-]. Qed.

Lemma keeps_forks_tcsetattr (fd actions modes : Z) :
  keeps forks (tcsetattr fd actions modes).
Proof. by intros w a w' [= _ <-]. Qed.

Lemma keeps_forks_wait_step (j : Job) : keeps forks (wait_step j).
Proof.
  intros w a w'.
  unfold wait_step, mbind, OS_bind, waitpid, get_errno, mret, OS_ret.
  destruct (waits w) as [|[[pid status] err] rest]; [done|]. simpl.
  destruct (MarkProcessStatus _ _ _ _) as [r j2]. by intros [= _ <-].
Qed.

Lemma keeps_forks_wait_loop (n : nat) (j : Job) : keeps forks (wait_loop n j).
Proof.
  revert j. induction n as [|n IH]; intros j; [by intros w a w'|].
  simpl. apply keeps_bind; [apply keeps_forks_wait_step|].
  intros [[] j']; [apply IH|apply keeps_ret].
Qed.

Lemma keeps_forks_WaitForJob (j : Job) : keeps forks (WaitForJob j).
Proof. intros w a w'. apply keeps_forks_wait_loop. Qed.

(** What follows the loop of [LaunchJob] does not fork. *)
Lemma LaunchJob_forks (mypipe : Z * Z) (foreground : Z) (j j' : Job)
  (w w' : World) :
  LaunchJob env LookupCmd CmdDeclExec exec_found mypipe foreground j w
  = Returned j' w' ->
  exists j1 w1,
    launch_loop env LookupCmd CmdDeclExec exec_found foreground
      (length (process_ j)) 0 (stdin_ j) mypipe j w = Returned j1 w1 /\
    forks w' = forks w1.
Proof.
  unfold LaunchJob. intros (j1 & w1 & Hloop & H)%bind_Returned.
  exists j1, w1. split; [done|]. revert H.
  assert (forall m : OS Job, keeps forks m ->
            m w1 = Returned j' w' -> forks w' = forks w1) as Hkeeps
    by (intros m Hm; apply Hm).
  apply Hkeeps.
  destruct (negb (shell_is_interactive env)); [apply keeps_forks_WaitForJob|].
  destruct (negb (foreground =? 0)).
  - unfold PutJobInForeground.
    repeat first
      [ apply keeps_ret | apply keeps_forks_call | apply keeps_forks_kill
      | apply keeps_forks_tcgetattr | apply keeps_forks_tcsetattr
      | apply keeps_forks_WaitForJob | apply keeps_when
      | apply keeps_bind; [|intros ?] ].
  - unfold PutJobInBackground.
    repeat first
      [ apply keeps_ret | apply keeps_forks_call | apply keeps_forks_kill
      | apply keeps_when | apply keeps_bind; [|intros ?] ].
Qed.

Lemma zip_set_pid_pids (pids : list Z) (ps : list Process) :
  length pids = length ps ->
  pid_ <$> zip_with set_pid pids ps = pids /\
  Forall2 same_but_pid ps (zip_with set_pid pids ps).
Proof.
  revert ps. induction pids as [|pid pids IH]; intros [|p ps] Hlen;
    simpl in Hlen; try lia.
  - split; [done|constructor].
  - destruct (IH ps) as [Hp Hs]; [lia|]. split.
    + change (pid :: (pid_ <$> zip_with set_pid pids ps) = pid :: pids).
      by rewrite Hp.
    + simpl. by constructor.
Qed.

Lemma Forall2_flags_kept_pids (ps ps' : list Process) :
  Forall2 flags_kept ps ps' ->
  pid_ <$> ps' = pid_ <$> ps /\ args_ <$> ps' = args_ <$> ps.
Proof.
  induction 1 as [|p p' ps ps' (Hp & Ha & _) _ [IHp IHa]]; [done|].
  rewrite !fmap_cons. split; congruence.
Qed.

Lemma Forall2_same_but_pid_args (ps ps' : list Process) :
  Forall2 same_but_pid ps ps' -> args_ <$> ps' = args_ <$> ps.
Proof.
  induction 1 as [|p p' ps ps' (Ha & _) _ IH]; [done|].
  rewrite !fmap_cons. congruence.
Qed.

End LaunchJobFacts.

(** X15. When [LaunchJob] returns, it has forked once per process and not
    once more: it has taken exactly as many answers of [fork] as the job
    has processes, the first ones, and left the others. The processes
    carry, in their order, the pids of these answers, all positive, and
    their arguments are untouched. In an interactive shell a job without a
    process group gets the pid of its first process as its group; a group
    the job had, and the group of a job in a shell that is not interactive,
    are kept. *)
Theorem LaunchJob_records_the_pids
  (env : CmdExec.EnvShell)
  (LookupCmd : string -> option CmdExec.CmdEntryType)
  (CmdDeclExec : list string -> CmdExec.OS unit)
  (exec_found : string -> bool)
  (mypipe : Z * Z) (foreground : Z)
  (j j' : CmdExec.Job) (w w' : CmdExec.World)
  (Hreturned :
     CmdExec.LaunchJob env LookupCmd CmdDeclExec exec_found mypipe
       foreground j w = CmdExec.Returned j' w') :
  let pids := take (length (CmdExec.process_ j)) (CmdExec.forks w) in
  length pids = length (CmdExec.process_ j) /\
  CmdExec.pid_ <$> CmdExec.process_ j' = pids /\
  Forall (fun pid => 0 < pid)%Z pids /\
  CmdExec.args_ <$> CmdExec.process_ j'
  = CmdExec.args_ <$> CmdExec.process_ j /\
  CmdExec.pgid_ j'
  = (if CmdExec.shell_is_interactive env && (CmdExec.pgid_ j =? 0)%Z
     then hd 0%Z pids else CmdExec.pgid_ j) /\
  CmdExec.forks w = (pids ++ CmdExec.forks w')%list.
Proof.
  assert (exists w1,
            CmdExec.forks w
            = (take (length (CmdExec.process_ j)) (CmdExec.forks w)
               ++ CmdExec.forks w1)%list /\
            CmdExec.forks w' = CmdExec.forks w1) as (w0 & Hleft & Hsame).
  { destruct (LaunchJob_forks _ _ _ _ _ _ _ _ _ _ Hreturned)
      as (j1 & w1 & Hloop & Hforks).
    apply launch_loop_returned in Hloop as (pids & Hn & Hf & _); [|done].
    exists w1. split; [|done].
    by rewrite Hf at 1; rewrite Hf, <- Hn, take_app_length. }
  rewrite <- Hsame in Hleft. clear w0 Hsame.
  apply LaunchJob_Returned in Hreturned as (j1 & w1 & Hloop & Htail).
  apply launch_loop_returned in Hloop
    as (pids & Hn & Hf & Hall & _ & Hps & Hg & _); [|done].
  rewrite take_0, drop_0 in Hps. simpl in Hps.
  destruct (zip_set_pid_pids pids (CmdExec.process_ j) Hn) as [Hpids Hsame].
  rewrite <- Hps in Hpids, Hsame.
  apply Forall2_same_but_pid_args in Hsame.
  assert (take (length (CmdExec.process_ j)) (CmdExec.forks w) = pids)
    as Htake by (by rewrite Hf, <- Hn, take_app_length).
  rewrite Htake in Hleft. rewrite Htake.
  cbv zeta. split; [done|].
  destruct Htail as [(_ & _ & -> & _)|(_ & w1' & j2 & w2 & _ & Hwait & Hp & Hg' & _)].
  - done.
  - destruct (wait_loop_keeps _ _ _ _ _ Hwait) as (Hkept & _ & Hg2 & _).
    apply Forall2_flags_kept_pids in Hkept as [Hkp Hka].
    rewrite Hp, Hkp, Hka, Hg', Hg2. done.
Qed.

(** X16. A launch in the background of an interactive shell does not wait:
    it takes no answer of [waitpid], and the processes come back with
    their flags and statuses as they were, changed in their pids only. *)
Theorem LaunchJob_background_does_not_wait
  (env : CmdExec.EnvShell)
  (LookupCmd : string -> option CmdExec.CmdEntryType)
  (CmdDeclExec : list string -> CmdExec.OS unit)
  (exec_found : string -> bool)
  (mypipe : Z * Z) (j j' : CmdExec.Job) (w w' : CmdExec.World)
  (Hinteractive : CmdExec.shell_is_interactive env = true)
  (Hreturned :
     CmdExec.LaunchJob env LookupCmd CmdDeclExec exec_found mypipe 0 j w
     = CmdExec.Returned j' w') :
  CmdExec.waits w' = CmdExec.waits w /\
  Forall2 CmdExec.same_but_pid (CmdExec.process_ j) (CmdExec.process_ j') /\
  CmdExec.job_status_ j' = CmdExec.job_status_ j.
Proof.
  apply LaunchJob_Returned in Hreturned as (j1 & w1 & Hloop & Htail).
  apply launch_loop_returned in Hloop
    as (pids & Hn & _ & _ & Hw & Hps & _ & Hst & _); [|done].
  rewrite take_0, drop_0 in Hps. simpl in Hps.
  destruct Htail as [(_ & _ & -> & ->)|([Hni|Hfg] & _)]; [|congruence|done].
  split; [done|]. split; [|done]. rewrite Hps.
  by apply zip_set_pid_pids.
Qed.


(** ** The shell process and its children *)

Section ParentFacts.

Import CmdExec.
Open Scope Z_scope.
Open Scope list_scope.

Variable env : EnvShell.
Variable LookupCmd : string -> option CmdEntryType.
Variable CmdDeclExec : list string -> OS unit.
Variable exec_found : string -> bool.

Lemma parent_safe_ret {A} (a : A) : parent_safe (mret a : OS A).
Proof. by intros w H. Qed.

Lemma parent_safe_bind {A B} (m : OS A) (k : A -> OS B) :
  parent_safe m -> (forall a, parent_safe (k a)) -> parent_safe (m ≫= k).
Proof.
  intros Hm Hk w H. specialize (Hm w H). unfold mbind, OS_bind.
  destruct (m w) as [a w1| | | |]; try done. by apply Hk.
Qed.

Lemma parent_safe_keeps {A} (m : OS A) :
  keeps forks m ->
  (forall w, match m w with
             | Returned _ _ | NoAnswer => True
             | Exited status _ => status = 1
             | _ => False
             end) ->
  parent_safe m.
Proof.
  intros Hk Hm w H. specialize (Hm w).
  destruct (m w) as [a w1| | | |] eqn:Hmw; try done.
  by rewrite (Hk _ _ _ Hmw).
Qed.

Lemma parent_safe_call (s : Syscall) : parent_safe (call s).
Proof. by intros w H. Qed.

Lemma parent_safe_when (b : bool) (m : OS unit) :
  parent_safe m -> parent_safe (when b m).
Proof. intros H. destruct b; [done|apply parent_safe_ret]. Qed.

Lemma parent_safe_exit_1 {A} : parent_safe (exit 1 : OS A).
Proof. by intros w H. Qed.

Lemma parent_safe_pipe : parent_safe pipe.
Proof. intros w H. unfold pipe. by destruct (pipes w). Qed.

Lemma parent_safe_kill (pid sig : Z) : parent_safe (kill pid sig).
Proof. intros w H. unfold kill. by destruct (kills w). Qed.

Lemma parent_safe_tcgetattr (fd : Z) : parent_safe (tcgetattr fd).
Proof. by intros w H. Qed.

Lemma parent_safe_tcsetattr (fd actions modes : Z) :
  parent_safe (tcsetattr fd actions modes).
Proof. by intros w H. Qed.

(** After [fork], the code that follows runs with a pid that is not 0. *)
Lemma parent_safe_fork_bind {B} (k : Z -> OS B) :
  (forall pid, pid <> 0 -> parent_safe (k pid)) -> parent_safe (fork ≫= k).
Proof.
  intros Hk w H. unfold mbind, OS_bind, fork.
  destruct (forks w) as [|pid rest] eqn:Hf; [done|].
  apply Hk.
  - intros ->. apply H. by apply elem_of_cons; left.
  - simpl. intros H0. apply H. by apply elem_of_cons; right.
Qed.

Lemma parent_safe_wait_step (j : Job) : parent_safe (wait_step j).
Proof.
  intros w H. pose proof (wait_step_run j w) as Hs.
  destruct (waits w) as [|[[pid status] err] rest] eqn:Hw.
  - by rewrite Hs.
  - destruct Hs as (w' & Hrun & _). rewrite Hrun.
    unfold wait_step, mbind, OS_bind, waitpid, get_errno in Hrun.
    rewrite Hw in Hrun. simpl in Hrun.
    destruct (MarkProcessStatus _ _ _ _) as [r j2].
    inversion Hrun. done.
Qed.

Lemma parent_safe_wait_loop (n : nat) (j : Job) : parent_safe (wait_loop n j).
Proof.
  revert j. induction n as [|n IH]; intros j; [by intros w H|].
  simpl. apply parent_safe_bind; [apply parent_safe_wait_step|].
  intros [[] j']; [apply IH|apply parent_safe_ret].
Qed.

Lemma parent_safe_WaitForJob (j : Job) : parent_safe (WaitForJob j).
Proof. intros w H. by apply parent_safe_wait_loop. Qed.

Lemma parent_safe_PutJobInForeground (cont : Z) (j : Job) :
  parent_safe (PutJobInForeground env cont j).
Proof.
  unfold PutJobInForeground.
  repeat first
    [ apply parent_safe_ret | apply parent_safe_call | apply parent_safe_kill
    | apply parent_safe_tcgetattr | apply parent_safe_tcsetattr
    | apply parent_safe_WaitForJob | apply parent_safe_when
    | apply parent_safe_bind; [|intros ?] ].
Qed.

Lemma parent_safe_PutJobInBackground (cont : Z) (j : Job) :
  parent_safe (PutJobInBackground cont j).
Proof.
  unfold PutJobInBackground.
  repeat first
    [ apply parent_safe_ret | apply parent_safe_call | apply parent_safe_kill
    | apply parent_safe_when | apply parent_safe_bind; [|intros ?] ].
Qed.

Lemma parent_safe_launch_loop (foreground : Z) (n i : nat) (infile : Z)
  (mypipe : Z * Z) (j : Job) :
  parent_safe
    (launch_loop env LookupCmd CmdDeclExec exec_found foreground n i infile
       mypipe j).
Proof.
  revert i infile mypipe j. induction n as [|n IH]; intros i infile mypipe j;
    simpl; [apply parent_safe_ret|].
  apply parent_safe_bind.
  { destruct (negb _); [|apply parent_safe_ret].
    apply parent_safe_bind; [apply parent_safe_pipe|]. intros [[r rd] wr].
    destruct (r <? 0); [|apply parent_safe_ret].
    apply parent_safe_bind; [apply parent_safe_call|]. intros _.
    apply parent_safe_exit_1. }
  intros [outfile mypipe']. apply parent_safe_fork_bind. intros pid Hpid.
  apply parent_safe_bind.
  { destruct (Z.eqb_spec pid 0); [done|]. destruct (pid <? 0).
    - apply parent_safe_bind; [apply parent_safe_call|]. intros _.
      apply parent_safe_exit_1.
    - cbv zeta. destruct (shell_is_interactive env); [|apply parent_safe_ret].
      apply parent_safe_bind; [apply parent_safe_call|]. intros _.
      apply parent_safe_ret. }
  intros j'.
  apply parent_safe_bind; [apply parent_safe_when, parent_safe_call|].
  intros _.
  apply parent_safe_bind; [apply parent_safe_when, parent_safe_call|].
  intros _. apply IH.
Qed.

End ParentFacts.

(** X18. In the shell process itself, where [fork] never answers 0,
    [LaunchJob] throws no exception and never replaces the process: it
    returns, waits for an answer that does not come, or, when [pipe] or
    [fork] fails, ends the whole shell with exit status 1. *)
Theorem LaunchJob_in_the_parent
  (env : CmdExec.EnvShell)
  (LookupCmd : string -> option CmdExec.CmdEntryType)
  (CmdDeclExec : list string -> CmdExec.OS unit)
  (exec_found : string -> bool)
  (mypipe : Z * Z) (foreground : Z) (j : CmdExec.Job) (w : CmdExec.World)
  (Hparent : 0%Z ∉ CmdExec.forks w) :
  match CmdExec.LaunchJob env LookupCmd CmdDeclExec exec_found mypipe
          foreground j w with
  | CmdExec.Returned _ _ => True
  | CmdExec.NoAnswer => True
  | CmdExec.Exited status _ => status = 1%Z
  | CmdExec.Execed _ => False
  | CmdExec.Thrown _ _ => False
  end.
Proof.
  assert (CmdExec.parent_safe
            (CmdExec.LaunchJob env LookupCmd CmdDeclExec exec_found mypipe
               foreground j)) as Hsafe.
  { unfold CmdExec.LaunchJob. apply parent_safe_bind.
    - apply parent_safe_launch_loop.
    - intros j1. destruct (negb (CmdExec.shell_is_interactive env)).
      + apply parent_safe_WaitForJob.
      + destruct (negb (foreground =? 0)%Z).
        * apply parent_safe_PutJobInForeground.
        * apply parent_safe_PutJobInBackground. }
  specialize (Hsafe w Hparent).
  by destruct (CmdExec.LaunchJob _ _ _ _ _ _ _ _).
Qed.

(** ** What becomes of the child *)

Section ChildFacts.

Import CmdExec.
Open Scope Z_scope.
Open Scope list_scope.

Variable env : EnvShell.
Variable LookupCmd : string -> option CmdEntryType.
Variable CmdDeclExec : list string -> OS unit.
Variable exec_found : string -> bool.









End ChildFacts.


(** * The further properties on the concrete inputs *)

(** [fn h(x, y = 1)] and [fn h(x, y)] are equal abstract methods, and the
    function [ex_init] of two parameters conforms to both or to neither. *)
Lemma AbstractMethod_eq_accepts_same_functions_witness :
  let h' := {| AbstractMethods.num_params_ := 2;
               AbstractMethods.num_default_params_ := 0;
               AbstractMethods.variadic_ := false |} in
  AbstractMethods.eq ex_method_h h' = true /\
  AbstractMethods.eq_func ex_method_h ex_init
  = AbstractMethods.eq_func h' ex_init.
Proof.
  cbv zeta. split; [reflexivity|].
  refine (proj1 (AbstractMethod_eq_accepts_same_functions ex_method_h _
                   ex_init _)).
  reflexivity.
Defined.

(** [abstract class D: A] accepts the abstract method [h] and refuses a
    second [f]. *)
Lemma AddAbstractMethod_after_new_witness :
  exists d,
    DeclClassType_new "D" [] (DeclaredBase ex_class_A) true = Ok d /\
    (exists d', AddAbstractMethod ex_ExistsAttr "h" ex_method_h d = Ok d') /\
    forall e, AddAbstractMethod ex_ExistsAttr "f" ex_method_h d = Throw e ->
              code e = INCOMPATIBLE_TYPE.
Proof.
  eexists. split; [vm_compute; reflexivity|].
  match goal with |- context [AddAbstractMethod _ _ _ ?d] =>
    assert (DeclClassType_new "D" [] (DeclaredBase ex_class_A) true = Ok d)
      as Hnew by (vm_compute; reflexivity);
    pose proof (AddAbstractMethod_after_new ex_ExistsAttr "D" []
                  (DeclaredBase ex_class_A) true d Hnew) as [Hok Hthrow]
  end.
  split.
  - eexists. apply Hok. repeat split.
  - intros e. apply Hthrow.
Defined.

(** [class B: A] with [f] implemented passes the check of its abstract
    methods. *)
Lemma concrete_class_answers_for_its_base_witness :
  exists b,
    DeclClassType_new "B" [] (DeclaredBase ex_class_A) false = Ok b /\
    AddAbstractMethod ex_ExistsAttr "h" ex_method_h b
    = Throw {| code := INCOMPATIBLE_TYPE |}.
Proof.
  eexists. split; [vm_compute; reflexivity|].
  match goal with |- AddAbstractMethod _ _ _ ?b = _ =>
    refine (proj1 (concrete_class_answers_for_its_base ex_search_B "B" []
                     (DeclaredBase ex_class_A) b _) ex_ExistsAttr "h"
              ex_method_h)
  end.
  vm_compute. reflexivity.
Defined.

(** [interface J: I] accepts the method [h], and holds it. *)
Lemma AddMethod_after_new_witness :
  exists i,
    DeclInterface_new "J" [ex_interface_I] = Ok i /\
    match AddMethod "h" ex_method_h i with
    | Ok i' => methods_ i' !! "h" = Some ex_method_h
    | Throw e => code e = INCOMPATIBLE_TYPE
    end.
Proof.
  eexists. split; [vm_compute; reflexivity|].
  match goal with |- context [AddMethod _ _ ?i] =>
    assert (DeclInterface_new "J" [ex_interface_I] = Ok i)
      as Hnew by (vm_compute; reflexivity);
    pose proof (AddMethod_after_new "J" [ex_interface_I] i "h" ex_method_h
                  Hnew) as H
  end.
  destruct (AddMethod _ _ _);
    [exact (proj1 (proj2 H))|exact (proj1 H)].
Defined.

(** Waiting for the job whose processes have exited, with no child left to
    report: the processes keep their flags. *)
Lemma WaitForJob_never_unmarks_witness :
  exists j' w',
    CmdExec.WaitForJob ex_job_done (ex_world [(0, 0, 0)]%Z)
    = CmdExec.Returned j' w' /\
    Forall2 CmdExec.flags_kept
      (CmdExec.process_ ex_job_done) (CmdExec.process_ j').
Proof.
  eexists _, _. split; [vm_compute; reflexivity|].
  refine (proj1 (WaitForJob_never_unmarks ex_job_done _
                   (ex_world [(0, 0, 0)]%Z) _ _)).
  vm_compute. reflexivity.
Defined.

(** The same job takes the one answer there is, and none when there is
    none. *)
Lemma WaitForJob_waits_once_on_finished_job_witness :
  CmdExec.JobIsStopped ex_job_done = 1%Z /\
  CmdExec.WaitForJob ex_job_done (ex_world []) = CmdExec.NoAnswer.
Proof.
  split; [reflexivity|].
  refine (WaitForJob_waits_once_on_finished_job ex_job_done (ex_world []) _).
  reflexivity.
Defined.

(** The pipeline launched in the foreground: the processes carry the pids
    10 and 11, the two answers of [fork], and no answer beyond them is
    taken. *)
Lemma LaunchJob_records_the_pids_witness :
  exists j' w',
    CmdExec.LaunchJob ex_env ex_LookupCmd ex_CmdDeclExec ex_exec_found
      (0, 0)%Z 1 ex_job (ex_world [(10, 0, 0); (11, 0, 0)]%Z)
    = CmdExec.Returned j' w' /\
    CmdExec.pid_ <$> CmdExec.process_ j' = [10; 11]%Z /\
    [10; 11]%Z = ([10; 11]%Z ++ CmdExec.forks w')%list.
Proof.
  eexists _, _. split; [vm_compute; reflexivity|].
  pose proof (LaunchJob_records_the_pids ex_env ex_LookupCmd
                ex_CmdDeclExec ex_exec_found (0, 0)%Z 1 ex_job _
                (ex_world [(10, 0, 0); (11, 0, 0)]%Z) _
                ltac:(vm_compute; reflexivity)) as H.
  cbv zeta in H. destruct H as (_ & Hpids & _ & _ & _ & Hforks).
  split; [exact Hpids|exact Hforks].
Defined.

(** The pipeline launched in the background: the answers of [waitpid] are
    all left. *)
Lemma LaunchJob_background_does_not_wait_witness :
  exists j' w',
    CmdExec.LaunchJob ex_env ex_LookupCmd ex_CmdDeclExec ex_exec_found
      (0, 0)%Z 0 ex_job (ex_world [(10, 0, 0); (11, 0, 0)]%Z)
    = CmdExec.Returned j' w' /\
    CmdExec.waits w' = [(10, 0, 0); (11, 0, 0)]%Z.
Proof.
  eexists _, _. split; [vm_compute; reflexivity|].
  refine (proj1 (LaunchJob_background_does_not_wait ex_env ex_LookupCmd
                   ex_CmdDeclExec ex_exec_found (0, 0)%Z ex_job _
                   (ex_world [(10, 0, 0); (11, 0, 0)]%Z) _ _ _)).
  - reflexivity.
  - vm_compute. reflexivity.
Defined.


(** The shell that launches the pipeline is the parent of both children:
    the launch neither throws nor replaces the shell. *)
Lemma LaunchJob_in_the_parent_witness :
  (0%Z ∉ CmdExec.forks (ex_world [(10, 0, 0); (11, 0, 0)]%Z)) /\
  match CmdExec.LaunchJob ex_env ex_LookupCmd ex_CmdDeclExec ex_exec_found
          (0, 0)%Z 1 ex_job (ex_world [(10, 0, 0); (11, 0, 0)]%Z) with
  | CmdExec.Returned _ _ => True
  | CmdExec.NoAnswer => True
  | CmdExec.Exited status _ => status = 1%Z
  | CmdExec.Execed _ => False
  | CmdExec.Thrown _ _ => False
  end.
Proof.
  assert (0%Z ∉ CmdExec.forks (ex_world [(10, 0, 0); (11, 0, 0)]%Z)) as H.
  { intros H%list_elem_of_In. simpl in H. lia. }
  split; [exact H|].
  exact (LaunchJob_in_the_parent ex_env ex_LookupCmd ex_CmdDeclExec
           ex_exec_found (0, 0)%Z 1 ex_job _ H).
Defined.
